(** * Melt-line crossing analysis: a shallow embedding of
      [find_melt_line_crossings] (temperature_analysis.py)

    The Python function receives two NumPy arrays (times and temperatures)
    and a melt temperature.  It sorts the samples by time, resamples the
    piecewise-linear signal on a ten times finer uniform grid, records every
    sign change of [temperature - melt_temp] between neighbouring grid
    points together with a linearly interpolated crossing time, and finally
    pairs each "up" crossing that is directly followed by a "down" crossing
    into a period above the melt line.

    Numbers.  NumPy computes with IEEE binary64, and so does this model: a
    number is a primitive binary64 float, every operation rounds to nearest
    (ties to even), overflows to an infinity and underflows gradually, and
    the arrays may hold infinities and NaN. *)

From Stdlib Require Import List Arith ZArith QArith Qabs Lia Lqa Bool ZifyBool.
From Stdlib Require Import Permutation Sorted Zpower.
From Stdlib Require Import Floats.
From Stdlib Require Uint63.
From Stdlib Require Ascii String DecimalString DecimalNat.
Import ListNotations.

Set Warnings "-inexact-float".

(** ** Numbers *)

Module F64.

Definition float : Type := PrimFloat.float.

Definition zero : float := 0%float.

Definition nan : float := PrimFloat.nan.

(** The conversion of a Python [int] or of an item of [np.arange] to
    binary64 (array lengths are far below 2^63). *)
Definition of_nat (n : nat) : float :=
  PrimFloat.of_uint63 (Uint63.of_Z (Z.of_nat n)).

Definition add (x y : float) : float := PrimFloat.add x y.

Definition sub (x y : float) : float := PrimFloat.sub x y.

Definition mul (x y : float) : float := PrimFloat.mul x y.

(** NumPy's division: a division by zero gives an infinity or NaN (and a
    warning), never an exception. *)
Definition div (x y : float) : float := PrimFloat.div x y.

(** Comparisons: every comparison with NaN is false, except [!=]. *)
Definition le (x y : float) : bool := PrimFloat.leb x y.

Definition lt (x y : float) : bool := PrimFloat.ltb x y.

Definition gt (x y : float) : bool := PrimFloat.ltb y x.

Definition eqb (x y : float) : bool := PrimFloat.eqb x y.

Definition neb (x y : float) : bool := negb (eqb x y).

Definition is_nan (x : float) : bool := negb (eqb x x).

Definition is_fin (x : float) : bool := PrimFloat.is_finite x.

(** The order NumPy sorts and searches with: [a < b], and NaN after
    every number ([a < b || (b != b && a == a)]). *)
Definition less (a b : float) : bool :=
  lt a b || (is_nan b && negb (is_nan a)).

End F64.

Import F64.

(** ** Results of a call

    A call returns a value, raises an exception, or ([OutOfFuel]) has not
    finished its pairing loop within the allowed number of iterations. *)

Inductive exception : Type :=
| IndexError
| ValueError.

Inductive outcome (A : Type) : Type :=
| Returns (a : A)
| Raises (e : exception)
| OutOfFuel.

Arguments Returns {A} a.
Arguments Raises {A} e.
Arguments OutOfFuel {A}.

(** ** Data *)

(** The second component of a crossing tuple: the strings "up" and "down". *)
Inductive crossing_type : Type :=
| up
| down.

Definition is_up (c : crossing_type) : bool :=
  match c with up => true | down => false end.

Definition is_down (c : crossing_type) : bool :=
  match c with down => true | up => false end.

(** A crossing is the tuple [(crossing_time, crossing_type)]. *)
Definition crossing : Type := (float * crossing_type)%type.

(** One entry of [time_above_melt_periods]. *)
Record period : Type := mk_period {
  start_time : float;
  end_time : float;
  duration : float;
  spike_number : nat
}.

(** ** Library calls *)

(** [np.argsort(time_data)] with the default [kind]: NumPy promises an index
    array that is a permutation of [0 .. n-1] and sorts the data, NaN last;
    the default kind (quicksort) makes no promise on the order of equal
    keys.  The index array is therefore an input of the model, and
    [argsort_ok] is the contract it satisfies. *)
Fixpoint sorted_nan_last (l : list float) : bool :=
  match l with
  | a :: (b :: _) as t => negb (less b a) && sorted_nan_last t
  | _ => true
  end.

Definition is_index_permutation (n : nat) (idx : list nat) : bool :=
  (length idx =? n)%nat
  && forallb (fun i => existsb (Nat.eqb i) idx) (seq 0 n).

Definition argsort_ok (time_data : list float) (idx : list nat) : bool :=
  is_index_permutation (length time_data) idx
  && sorted_nan_last (map (fun i => nth i time_data nan) idx).

(** [arr[idx]] with an index array: the selected elements, or IndexError
    when an index is out of bounds. *)
Fixpoint take_indices {A : Type} (arr : list A) (idx : list nat)
  : option (list A) :=
  match idx with
  | [] => Some []
  | i :: idx' =>
      match nth_error arr i, take_indices arr idx' with
      | Some a, Some r => Some (a :: r)
      | _, _ => None
      end
  end.

(** [np.linspace(start, stop, num)] (endpoint included):
    [step = (stop - start) / (num - 1)], the points [k * step + start], and
    the last point set to [stop].  When the step is zero NumPy computes
    [k / (num - 1) * (stop - start)] instead of [k * step]; with
    [num <= 1] there is no step and the points are
    [k * (stop - start) + start]. *)
Definition linspace (start stop : float) (num : nat) : list float :=
  let dv := (num - 1)%nat in
  let delta := sub stop start in
  let step := div delta (of_nat dv) in
  map (fun k =>
         if (1 <? num)%nat && (k =? num - 1)%nat then stop
         else if (0 <? dv)%nat then
                if eqb step zero
                then add (mul (div (of_nat k) (of_nat dv)) delta) start
                else add (mul (of_nat k) step) start
              else add (mul (of_nat k) delta) start)
      (seq 0 num).

(** [np.searchsorted(a, v)] (side 'left') on an array in NumPy's sort
    order: the first index [i] for which [a[i]] is not before [v],
    [len(a)] when there is none. *)
Fixpoint searchsorted (a : list float) (v : float) : nat :=
  match a with
  | [] => 0%nat
  | x :: a' => if less x v then S (searchsorted a' v) else 0%nat
  end.

Definition clip (i lo hi : nat) : nat := Nat.min (Nat.max i lo) hi.

(** [interpolate.interp1d(x, y, kind='linear', fill_value='extrapolate')]
    called at [x_new]: SciPy locates the segment with [searchsorted],
    clipped to [1 .. len(x)-1], and evaluates
    [slope * (x_new - x_lo) + y_lo] with
    [slope = (y_hi - y_lo) / (x_hi - x_lo)].  (SciPy first sorts [x] with a
    stable sort, which leaves the already sorted [sorted_time] as it is.) *)
Definition interp1d_linear (x y : list float) (x_new : float) : float :=
  let i := clip (searchsorted x x_new) 1 (length x - 1) in
  let lo := (i - 1)%nat in
  let hi := i in
  let x_lo := nth lo x nan in
  let x_hi := nth hi x nan in
  let y_lo := nth lo y nan in
  let y_hi := nth hi y nan in
  let slope := div (sub y_hi y_lo) (sub x_hi x_lo) in
  add (mul slope (sub x_new x_lo)) y_lo.

(** ** The function *)

(** The test of line 80 on [diff[i]] and [diff[i+1]]. *)
Definition rises (d0 d1 : float) : bool := le d0 zero && gt d1 zero.

Definition falls (d0 d1 : float) : bool := gt d0 zero && le d1 zero.

Definition sign_change (d0 d1 : float) : bool := rises d0 d1 || falls d0 d1.

(** Line 83. *)
Definition crossing_time_at (time_interp temp_interp : list float)
  (melt_temp : float) (i : nat) : float :=
  add (nth i time_interp nan)
      (div (mul (sub melt_temp (nth i temp_interp nan))
                (sub (nth (i + 1) time_interp nan) (nth i time_interp nan)))
           (sub (nth (i + 1) temp_interp nan) (nth i temp_interp nan))).

(** The body of the loop of lines 78-85 at index [i]: what it appends to
    [crossings]. *)
Definition crossing_at (time_interp temp_interp diff : list float)
  (melt_temp : float) (i : nat) : list crossing :=
  let d0 := nth i diff nan in
  let d1 := nth (i + 1) diff nan in
  if sign_change d0 d1 then
    if neb d1 d0 then
      let crossing_time := crossing_time_at time_interp temp_interp melt_temp i in
      let ctype := if rises d0 d1 then up else down in
      [(crossing_time, ctype)]
    else []
  else [].

(** Lines 75-85. *)
Definition detect_crossings (time_interp temp_interp : list float)
  (melt_temp : float) : list crossing :=
  let diff := map (fun v => sub v melt_temp) temp_interp in
  flat_map (crossing_at time_interp temp_interp diff melt_temp)
           (seq 0 (length diff - 1)).

(** Lines 93-110: the cursor loop.  [fuel] bounds the number of iterations;
    [None] means the bound was reached before the loop condition failed. *)
Fixpoint pairing_loop (fuel : nat) (crossings : list crossing) (i : nat)
  (time_above_melt_periods : list period) : option (list period) :=
  if (Z.of_nat i <? Z.of_nat (length crossings) - 1)%Z then
    match fuel with
    | O => None
    | S fuel' =>
        let current_crossing := nth i crossings (nan, down) in
        let next_crossing := nth (i + 1) crossings (nan, down) in
        if is_up (snd current_crossing) && is_down (snd next_crossing) then
          let time_above := sub (fst next_crossing) (fst current_crossing) in
          pairing_loop fuel' crossings (i + 2)
            (time_above_melt_periods ++
               [mk_period (fst current_crossing) (fst next_crossing) time_above
                          (length time_above_melt_periods + 1)])
        else
          pairing_loop fuel' crossings (i + 1) time_above_melt_periods
    end
  else Some time_above_melt_periods.

(** Lines 70-72: the resampling of the sorted samples. *)
Definition resample (sorted_time sorted_temp : list float)
  : list float * list float :=
  let time_interp :=
    linspace (nth 0 sorted_time nan)
             (nth (length sorted_time - 1) sorted_time nan)
             (length sorted_time * 10) in
  (time_interp, map (interp1d_linear sorted_time sorted_temp) time_interp).

Definition analysis : Type :=
  (list float * list crossing_type * list period)%type.

(** [find_melt_line_crossings(time_data, temp_data, melt_temp)];
    [sorted_indices] is the result of [np.argsort(time_data)]. *)
Definition find_melt_line_crossings (fuel : nat) (sorted_indices : list nat)
  (time_data temp_data : list float) (melt_temp : float) : outcome analysis :=
  if (length time_data <? 2)%nat then Returns ([], [], [])
  else
    match take_indices time_data sorted_indices,
          take_indices temp_data sorted_indices with
    | Some sorted_time, Some sorted_temp =>
        let '(time_interp, temp_interp) := resample sorted_time sorted_temp in
        let crossings := detect_crossings time_interp temp_interp melt_temp in
        match pairing_loop fuel crossings 0 [] with
        | Some time_above_melt_periods =>
            Returns (map fst crossings, map snd crossings,
                     time_above_melt_periods)
        | None => OutOfFuel
        end
    | _, _ => Raises IndexError
    end.

(** A series of samples [(time, value)], as the caller assembles it. *)
Definition series : Type := list (float * float).

Definition find_crossings (fuel : nat) (sorted_indices : list nat)
  (s : series) (threshold : float) : outcome analysis :=
  find_melt_line_crossings fuel sorted_indices (map fst s) (map snd s) threshold.

(** The single spike of the round-trip example. *)
Definition spike : series := [(0, 0); (1, 2000); (2, 0)]%float.

(** ** Pairing, as the specification words it

    The crossing at the cursor is the head of the list: an "up" directly
    followed by a "down" emits a period numbered one more than the periods
    emitted so far and moves on by two crossings, anything else moves on by
    one crossing and emits nothing. *)
Fixpoint pair_intervals_from (emitted : nat) (cs : list crossing)
  : list period :=
  match cs with
  | [] => []
  | c :: tl =>
      match c, tl with
      | (t0, up), (t1, down) :: rest =>
          mk_period t0 t1 (sub t1 t0) (emitted + 1)
          :: pair_intervals_from (emitted + 1) rest
      | _, _ => pair_intervals_from emitted tl
      end
  end.

Definition pair_intervals (cs : list crossing) : list period :=
  pair_intervals_from 0 cs.

(** ** Predicates used by the statements *)

(** Neighbouring numbers are in [<=] order. *)
Fixpoint ascending (l : list float) : bool :=
  match l with
  | a :: (b :: _) as t => le a b && ascending t
  | _ => true
  end.

Definition same_type (a b : crossing_type) : bool :=
  match a, b with
  | up, up | down, down => true
  | _, _ => false
  end.

(** No two neighbouring crossing types are equal. *)
Fixpoint alternating (l : list crossing_type) : bool :=
  match l with
  | a :: (b :: _) as t => negb (same_type a b) && alternating t
  | _ => true
  end.

(** Each period ends no later than the next one starts. *)
Fixpoint chained (ps : list period) : bool :=
  match ps with
  | p :: (q :: _) as t => le (end_time p) (start_time q) && chained t
  | _ => true
  end.

(** Cursor positions that are at least two apart. *)
Fixpoint spaced (js : list nat) : bool :=
  match js with
  | j :: (j' :: _) as t => (j + 2 <=? j')%nat && spaced t
  | _ => true
  end.

(** Indices in strictly increasing order. *)
Fixpoint increasing (js : list nat) : bool :=
  match js with
  | j :: (j' :: _) as t => (j <? j')%nat && increasing t
  | _ => true
  end.

(** Equal keys keep their input order in the index array [idx]: whenever
    position [p] comes before position [q] and both select the same time,
    the index at [p] is the smaller one. *)
Definition keeps_tie_order (time_data : list float) (idx : list nat) : bool :=
  forallb (fun q =>
    forallb (fun p =>
      let ip := nth p idx 0%nat in
      let iq := nth q idx 0%nat in
      implb (eqb (nth ip time_data nan) (nth iq time_data nan))
            (ip <? iq)%nat)
      (seq 0 q))
    (seq 0 (length idx)).

(** ** Auxiliary definitions for the statements and proofs *)

(** An integer whose order is the order of the floats: finite numbers by
    sign, exponent and mantissa, the infinities beyond them, and NaN after
    everything, where NumPy sorts it. *)
Definition ord_top : Z := (4000 * 2 ^ 53)%Z.

Definition ord_finite (m : positive) (e : Z) : Z :=
  ((e + 1075) * 2 ^ 53 + Zpos m)%Z.

Definition ord_sf (x : spec_float) : Z :=
  match x with
  | S754_zero _ => 0%Z
  | S754_finite false m e => ord_finite m e
  | S754_finite true m e => (- ord_finite m e)%Z
  | S754_infinity false => (3000 * 2 ^ 53)%Z
  | S754_infinity true => (- (3000 * 2 ^ 53))%Z
  | S754_nan => ord_top
  end.

Definition ord (x : float) : Z := ord_sf (Prim2SF x).

(** A float that is a number other than zero. *)
Definition nonzero_number (x : spec_float) : bool :=
  match x with
  | S754_finite _ _ _ | S754_infinity _ => true
  | _ => false
  end.

(** What the loop body appends at index [i], for a signal whose difference
    to the melt line is [d] and with crossing times [t]. *)
Definition scan_at (d t : nat -> float) (i : nat) : list crossing :=
  if rises (d i) (d (i + 1)%nat) then [(t i, up)]
  else if falls (d i) (d (i + 1)%nat) then [(t i, down)]
  else [].

(** The crossings recorded at the [n] indices from [a] on. *)
Definition scan (d t : nat -> float) (n a : nat) : list crossing :=
  flat_map (scan_at d t) (seq a n).

(** [arr[idx]] when every index is in range. *)
Definition sorted_by (idx : list nat) (arr : list float) : list float :=
  map (fun i => nth i arr nan) idx.

(** The arrays [time_interp] and [temp_interp] of a call. *)
Definition resampled (idx : list nat) (s : series)
  : list float * list float :=
  resample (sorted_by idx (map fst s)) (sorted_by idx (map snd s)).

(** The array [diff] of a call. *)
Definition resampled_diff (idx : list nat) (s : series) (threshold : float)
  : list float :=
  map (fun v => sub v threshold) (snd (resampled idx s)).

(** The list [crossings] the function builds from a series. *)
Definition crossings_of (idx : list nat) (s : series) (threshold : float)
  : list crossing :=
  detect_crossings (fst (resampled idx s)) (snd (resampled idx s)) threshold.

(** The cursor positions at which the scan emits a period, for a scan
    whose cursor is at [i] on the remaining crossings [cs]. *)
Fixpoint pair_cursors_from (i : nat) (cs : list crossing) : list nat :=
  match cs with
  | [] => []
  | c :: tl =>
      match c, tl with
      | (_, up), (_, down) :: rest => i :: pair_cursors_from (i + 2) rest
      | _, _ => pair_cursors_from (i + 1) tl
      end
  end.

(** The period emitted at cursor [j] is made of the crossings [j] and
    [j+1]. *)
Definition uses (cs : list crossing) (j : nat) (p : period) : Prop :=
  nth_error cs j = Some (start_time p, up)
  /\ nth_error cs (j + 1) = Some (end_time p, down).

(** Four samples at two times: the samples at each time differ in value. *)
Definition tied : series := [(39, 2000); (39, 0); (0, 2000); (0, 0)]%float.

(** Two spikes, to exercise the pairing on more than one period. *)
Definition two_spikes : series :=
  [(0, 0); (1, 2000); (2, 0); (3, 2000); (4, 0)]%float.

(** A signal that starts above the melt line, dips below and comes back. *)
Definition dip : series := [(0, 2000); (1, 0); (2, 2000); (3, 0)]%float.

(** Two spikes of different lengths: the second one is the longer. *)
Definition uneven_spikes : series :=
  [(0, 0); (1, 2000); (2, 0); (3, 2000); (4, 2000); (5, 0)]%float.

(** A series whose second crossing time is rounded to just before the
    first. *)
Definition rounded_backwards : series :=
  [(0, 1572); (0.9, 1000); (26.1, 1600)]%float.

(** A series with a NaN temperature in the middle. *)
Definition with_nan : series :=
  [(0, 0); (10, 2000); (20, nan); (30, 0); (49, 2000)]%float.

(** A series that touches the melt line between two spikes. *)
Definition touching : series :=
  [(-1.1, 0); (-1, 1600); (0, 1571.15); (1.9, 1600); (3.8, 0)]%float.

(** Two samples tie when neither comes before the other in NumPy's sort
    order: equal numbers (also 0.0 and -0.0), or two NaN. *)
Definition ties (a b : float) : bool := negb (less a b) && negb (less b a).

(** No two samples of the series tie in time. *)
Fixpoint distinct_times (s : series) : bool :=
  match s with
  | [] => true
  | p :: tl =>
      forallb (fun q => negb (ties (fst p) (fst q))) tl
      && distinct_times tl
  end.

(** The rank of the time of a sample. *)
Definition time_rank (p : float * float) : Z := ord (fst p).

(** Samples with pairwise different time ranks. *)
Definition separated (l : series) : Prop :=
  NoDup l /\ forall p q, In p l -> In q l -> time_rank p = time_rank q -> p = q.

(** One sample comes strictly before the other. *)
Definition earlier (p q : float * float) : Prop :=
  (time_rank p < time_rank q)%Z.

(** ** The summary computed by [plot_temperature_history_with_melt_analysis]

    Lines 240-243, 267-273 and 315 of the caller: the crossings split by
    type for the markers of the plot, and the statistics of the periods. *)

(** Lines 242-243: the comprehensions over [zip(crossing_times,
    crossing_types)]. *)
Definition up_times (crossing_times : list float)
  (crossing_types : list crossing_type) : list float :=
  map fst (filter (fun c => is_up (snd c))
                  (combine crossing_times crossing_types)).

Definition down_times (crossing_times : list float)
  (crossing_types : list crossing_type) : list float :=
  map fst (filter (fun c => is_down (snd c))
                  (combine crossing_times crossing_types)).

(** Python's [max(best :: l, key=key)]: the running maximum starts as the
    first item and is replaced only by an item whose key is greater. *)
Fixpoint max_by {A : Type} (key : A -> float) (best : A) (l : list A) : A :=
  match l with
  | [] => best
  | x :: l' => max_by key (if gt (key x) (key best) then x else best) l'
  end.

Record melt_summary : Type := mk_summary {
  total_crossings : nat;
  total_spikes : nat;
  max_time_above_melt : float;
  max_spike : option period
}.

(** Lines 267-270, 273 and 315: the counts, [max] over the durations and
    the period of greatest duration when there is a period, zero
    otherwise.  (The total of line 271 is not part of the model.) *)
Definition summarize (crossing_times : list float)
  (time_above_melt_periods : list period) : melt_summary :=
  match time_above_melt_periods with
  | [] => mk_summary (length crossing_times) 0 zero None
  | p :: ps =>
      mk_summary (length crossing_times) (length time_above_melt_periods)
                 (max_by (fun x => x) (duration p) (map duration ps))
                 (Some (max_by duration p ps))
  end.

(** ** [extract_timestep_from_filename]

    A file name is a Python string: a list of code points.  The six
    patterns of the function all have the shape [prefix(\d+)suffix] with
    literal [prefix] and [suffix], and [re.search] returns the leftmost
    match.  At a given start position the greedy [\d+] takes the longest
    run of digits; giving back digits cannot help, because the suffix
    starts with a dot and the next character would be a digit.  So a match
    at a position exists exactly when the prefix, a non-empty longest run
    of digits and the suffix follow one another there.

    Two things belong to the interpreter and not to the repository, and
    are parameters of the model:
    - [unicode_digit], the decimal digit value of a code point outside
      ASCII in the interpreter's Unicode database ([\d] and [int] accept
      every decimal digit, not only 0-9);
    - [int_max_str_digits], the limit [sys.int_max_str_digits] on the
      digits [int] converts (4300 unless configured otherwise, 0 for no
      limit): [int] raises ValueError on more than 640 digits when the
      limit is positive and exceeded. *)

Module Timestep.

Import Ascii String.
#[local] Open Scope N_scope.

(** The code points of an ASCII literal. *)
Fixpoint codes (s : string) : list N :=
  match s with
  | EmptyString => []
  | String c s' => N_of_ascii c :: codes s'
  end.

(** The decimal numeral [d] written out with the digits 0-9 (code points
    48 to 57), as [str] writes a number. *)
Fixpoint numeral (d : Decimal.uint) : list N :=
  match d with
  | Decimal.Nil => []
  | Decimal.D0 d' => 48 :: numeral d'
  | Decimal.D1 d' => 49 :: numeral d'
  | Decimal.D2 d' => 50 :: numeral d'
  | Decimal.D3 d' => 51 :: numeral d'
  | Decimal.D4 d' => 52 :: numeral d'
  | Decimal.D5 d' => 53 :: numeral d'
  | Decimal.D6 d' => 54 :: numeral d'
  | Decimal.D7 d' => 55 :: numeral d'
  | Decimal.D8 d' => 56 :: numeral d'
  | Decimal.D9 d' => 57 :: numeral d'
  end.

Section Interpreter.

Variable unicode_digit : N -> option nat.
Variable int_max_str_digits : nat.

(** The decimal digit value of a code point, if it is a decimal digit. *)
Definition digit_value (c : N) : option nat :=
  if (48 <=? c) && (c <=? 57) then Some (N.to_nat (c - 48))
  else if c <? 128 then None
  else unicode_digit c.

Definition is_digit (c : N) : bool :=
  match digit_value c with Some _ => true | None => false end.

(** The longest run of digits at the head of [s], and what follows it. *)
Fixpoint span_digits (s : list N) : list N * list N :=
  match s with
  | [] => ([], [])
  | c :: s' =>
      if is_digit c
      then let (ds, r) := span_digits s' in (c :: ds, r)
      else ([], s)
  end.

(** [s] without the literal [p] at its head, when [s] starts with [p]. *)
Fixpoint strip_prefix (p s : list N) : option (list N) :=
  match p with
  | [] => Some s
  | a :: p' =>
      match s with
      | [] => None
      | b :: s' => if a =? b then strip_prefix p' s' else None
      end
  end.

(** A match of [prefix(\d+)suffix] that starts at the head of [s]: the
    captured digits. *)
Definition match_here (prefix suffix s : list N) : option (list N) :=
  match strip_prefix prefix s with
  | None => None
  | Some r =>
      let (ds, r') := span_digits r in
      match ds with
      | [] => None
      | _ :: _ =>
          match strip_prefix suffix r' with
          | Some _ => Some ds
          | None => None
          end
      end
  end.

(** [re.search(pattern, s)]: the capture of the leftmost match. *)
Fixpoint search (prefix suffix s : list N) : option (list N) :=
  match match_here prefix suffix s with
  | Some ds => Some ds
  | None =>
      match s with
      | [] => None
      | _ :: s' => search prefix suffix s'
      end
  end.

(** The number a run of digits denotes, read from the left. *)
Fixpoint int_acc (ds : list N) (acc : nat) : nat :=
  match ds with
  | [] => acc
  | c :: ds' =>
      int_acc ds' (10 * acc + match digit_value c with
                              | Some v => v
                              | None => 0
                              end)%nat
  end.

(** A run of digits that [int] refuses to convert. *)
Definition too_long (ds : list N) : bool :=
  ((640 <? List.length ds) && (0 <? int_max_str_digits)
   && (int_max_str_digits <? List.length ds))%nat.

(** [int(ds)] on a run of digits. *)
Definition int (ds : list N) : outcome nat :=
  if too_long ds then Raises ValueError else Returns (int_acc ds 0).

(** The list [patterns] of the function, as (prefix, suffix) pairs. *)
Definition patterns : list (list N * list N) :=
  [(codes "test_small_", codes ".vtk"); (codes "test_small_", codes ".vtu");
   (codes "test_small_", codes ".vti");
   ([], codes ".vtk"); ([], codes ".vtu"); ([], codes ".vti")].

Fixpoint first_match (ps : list (list N * list N)) (filename : list N)
  : option (list N) :=
  match ps with
  | [] => None
  | (prefix, suffix) :: ps' =>
      match search prefix suffix filename with
      | Some ds => Some ds
      | None => first_match ps' filename
      end
  end.

Definition extract_timestep_from_filename (filename : list N)
  : outcome nat :=
  match first_match patterns filename with
  | Some ds => int ds
  | None => Returns 0%nat
  end.

(** Some character of [s] is a digit. *)
Fixpoint has_digit (s : list N) : bool :=
  match s with
  | [] => false
  | c :: s' => is_digit c || has_digit s'
  end.

(** [s] is empty or starts with a character that is not a digit. *)
Definition starts_without_digit (s : list N) : Prop :=
  match s with
  | [] => True
  | c :: _ => is_digit c = false
  end.

End Interpreter.

(** An interpreter that knows the Arabic-Indic digits (U+0660 to U+0669)
    beside 0-9, with the default limit. *)
Definition arabic_indic (c : N) : option nat :=
  if (1632 <=? c) && (c <=? 1641) then Some (N.to_nat (c - 1632)) else None.

End Timestep.

(** ** The measurements of [analyze_melt_pool_xy_plane]
       (enhanced_vtk_analyzer.py, lines 236-301)

    The function measures one plane of a regular grid: [x] and [y] are the
    grid coordinates, [xy_slice] holds one row of values per [y] index and
    one value per [x] index in each row (the grid is rectangular: it comes
    from a reshape to the lengths of the coordinate arrays).  Values and
    coordinates are exact rationals here; an index outside an array, which
    would raise in Python, reads 0 (an empty row for a missing row).  The
    model covers the reference row, the width and the two searches for the
    depth and the height; the centre of mass and the area of lines 293-301
    are not part of it. *)

Module MeltPool.

#[local] Open Scope Q_scope.

(** The coordinates of a grid do not decrease. *)
Fixpoint nondecreasing (l : list Q) : bool :=
  match l with
  | a :: (b :: _) as t => Qle_bool a b && nondecreasing t
  | _ => true
  end.

(** [v > threshold]. *)
Definition above (threshold v : Q) : bool := negb (Qle_bool v threshold).

(** [np.any(row > threshold)]. *)
Definition any_above (threshold : Q) (row : list Q) : bool :=
  existsb (above threshold) row.

(** [np.where(row > threshold)[0]]: the indices of the items above the
    threshold, in increasing order. *)
Definition where_above (threshold : Q) (row : list Q) : list nat :=
  filter (fun i => above threshold (nth i row 0)) (seq 0 (length row)).

(** [np.argmin]: the running minimum is replaced only by a smaller item,
    so the index of the first smallest item is returned.  (NumPy raises
    ValueError on an empty array; 0 stands for that here.) *)
Fixpoint argmin_from (best_i : nat) (best : Q) (i : nat) (l : list Q) : nat :=
  match l with
  | [] => best_i
  | v :: l' =>
      if negb (Qle_bool best v) then argmin_from i v (S i) l'
      else argmin_from best_i best (S i) l'
  end.

Definition argmin (l : list Q) : nat :=
  match l with
  | [] => 0%nat
  | v :: l' => argmin_from 0 v 1 l'
  end.

(** [np.argmin(np.abs(coords - target))]. *)
Definition closest_index (coords : list Q) (target : Q) : nat :=
  argmin (map (fun c => Qabs (c - target)) coords).

(** [np.min] and [np.max] of a non-empty array of indices. *)
Definition min_index (l : list nat) : nat :=
  match l with
  | [] => 0%nat
  | i :: l' => fold_left Nat.min l' i
  end.

Definition max_index (l : list nat) : nat :=
  match l with
  | [] => 0%nat
  | i :: l' => fold_left Nat.max l' i
  end.

Record measurements : Type := mk_measurements {
  width : Q;
  depth : Q;
  height : Q;
  actual_y_ref : Q;
  width_start_x : Q;
  width_end_x : Q;
  depth_end_y : Q;
  height_end_y : Q
}.

(** The row test of the two search loops: no value of row [i] is above
    the threshold. *)
Definition row_is_clear (threshold : Q) (xy_slice : list (list Q)) (i : nat)
  : bool :=
  negb (any_above threshold (nth i xy_slice [])).

Definition analyze_xy (x y : list Q) (xy_slice : list (list Q))
  (y_reference threshold : Q) : measurements :=
  let y_ref_idx := closest_index y y_reference in
  let y_ref := nth y_ref_idx y 0 in
  let width_profile := nth y_ref_idx xy_slice [] in
  let '(w, w_start, w_end) :=
    if any_above threshold width_profile then
      let x_indices := where_above threshold width_profile in
      let s := nth (min_index x_indices) x 0 in
      let e := nth (max_index x_indices) x 0 in
      (e - s, s, e)
    else (0, y_ref, y_ref) in
  let d_end :=
    match find (row_is_clear threshold xy_slice)
               (seq y_ref_idx (length y - y_ref_idx)) with
    | Some i => nth i y 0
    | None => last y 0
    end in
  let h_end :=
    match find (row_is_clear threshold xy_slice)
               (rev (seq 0 (y_ref_idx + 1))) with
    | Some i => nth i y 0
    | None => nth 0 y 0
    end in
  mk_measurements w (Qabs (y_reference - d_end)) (Qabs (y_reference - h_end))
                  y_ref w_start w_end d_end h_end.

End MeltPool.

(** * Properties *)

(** ** Binary64: mantissas, shifts and rounding *)

Lemma digits2_pos_spec (m : positive) :
  (2 ^ (Zpos (digits2_pos m) - 1) <= Zpos m < 2 ^ Zpos (digits2_pos m))%Z.
Proof.
  induction m as [m IH|m IH|]; cbn [digits2_pos].
  - rewrite Pos2Z.inj_succ, Pos2Z.inj_xI.
    replace (Z.succ (Zpos (digits2_pos m)) - 1)%Z
      with (Z.succ (Zpos (digits2_pos m) - 1)) by lia.
    rewrite !Z.pow_succ_r by lia. lia.
  - rewrite Pos2Z.inj_succ, (Pos2Z.inj_xO m).
    replace (Z.succ (Zpos (digits2_pos m)) - 1)%Z
      with (Z.succ (Zpos (digits2_pos m) - 1)) by lia.
    rewrite !Z.pow_succ_r by lia. lia.
  - change (2 ^ (1 - 1) <= 1 < 2 ^ 1)%Z. change (1 <= 1 < 2)%Z. lia.
Qed.

Lemma iter_xO_spec (m d : positive) :
  Zpos (Pos.iter xO m d) = (Zpos m * 2 ^ Zpos d)%Z.
Proof.
  induction d as [|d IH] using Pos.peano_ind.
  - cbn [Pos.iter]. rewrite (Pos2Z.inj_xO m). change (2 ^ 1)%Z with 2%Z. lia.
  - rewrite Pos.iter_succ, (Pos2Z.inj_xO (Pos.iter xO m d)), IH, Pos2Z.inj_succ,
      Z.pow_succ_r by lia. lia.
Qed.

(** The mantissa aligned to a smaller exponent. *)
Lemma shl_align_spec (m : positive) (e e' : Z) :
  (e' <= e)%Z ->
  Zpos (fst (shl_align m e e')) = (Zpos m * 2 ^ (e - e'))%Z.
Proof.
  intros H. unfold shl_align.
  destruct (e' - e)%Z as [|d|d] eqn:E; cbn [fst].
  - replace (e - e')%Z with 0%Z by lia. rewrite Z.pow_0_r. lia.
  - lia.
  - rewrite iter_xO_spec. f_equal. f_equal. lia.
Qed.

Lemma shl_align_exponent (m : positive) (e e' : Z) :
  snd (shl_align m e e') = e \/ snd (shl_align m e e') = e'.
Proof.
  unfold shl_align. destruct (e' - e)%Z; cbn [snd]; tauto.
Qed.

Lemma shr_1_m (mrs : shr_record) :
  (0 <= shr_m mrs)%Z -> shr_m (shr_1 mrs) = (shr_m mrs / 2)%Z.
Proof.
  destruct mrs as [m r s]. cbn [shr_m]. intros H.
  rewrite <- Z.div2_div.
  destruct m as [|[p|p|]|p]; try reflexivity. lia.
Qed.

Lemma iter_pos_shr_1_m (p : positive) :
  forall mrs, (0 <= shr_m mrs)%Z ->
    shr_m (iter_pos shr_1 p mrs) = (shr_m mrs / 2 ^ Zpos p)%Z.
Proof.
  assert (Hpow : forall q, (0 < 2 ^ Zpos q)%Z)
    by (intros q; apply Z.pow_pos_nonneg; lia).
  assert (Hnn : forall a b, (0 <= a)%Z -> (0 < b)%Z -> (0 <= a / b)%Z)
    by (intros a b Ha Hb; apply Z.div_pos; lia).
  induction p as [p IH|p IH|]; intros mrs H; cbn [iter_pos].
  - assert (H1 : (0 <= shr_m (shr_1 mrs))%Z)
      by (rewrite shr_1_m by exact H; apply Hnn; lia).
    assert (H2 : (0 <= shr_m (iter_pos shr_1 p (shr_1 mrs)))%Z)
      by (rewrite IH by exact H1; apply Hnn; [exact H1|apply Hpow]).
    rewrite IH by exact H2. rewrite IH by exact H1.
    rewrite shr_1_m by exact H.
    rewrite !Z.div_div by (try apply Hpow; pose proof (Hpow p); lia).
    f_equal. rewrite Pos2Z.inj_xI.
    replace (2 * Zpos p + 1)%Z with (Z.succ (Zpos p + Zpos p)) by lia.
    rewrite Z.pow_succ_r, Z.pow_add_r by lia. lia.
  - assert (H2 : (0 <= shr_m (iter_pos shr_1 p mrs))%Z)
      by (rewrite IH by exact H; apply Hnn; [exact H|apply Hpow]).
    rewrite IH by exact H2. rewrite IH by exact H.
    rewrite Z.div_div by (try apply Hpow; pose proof (Hpow p); lia).
    f_equal. rewrite (Pos2Z.inj_xO p).
    replace (2 * Zpos p)%Z with (Zpos p + Zpos p)%Z by lia.
    rewrite Z.pow_add_r by lia. reflexivity.
  - rewrite shr_1_m by exact H. reflexivity.
Qed.

Lemma shr_record_of_loc_m (m : Z) (l : location) :
  shr_m (shr_record_of_loc m l) = m.
Proof. destruct l as [|[| |]]; reflexivity. Qed.

(** Shifting a positive mantissa to the exponent of the format leaves a
    positive mantissa: at most the digits beyond the precision go. *)
Lemma shr_fexp_pos (m : positive) (e : Z) (l : location) :
  (emin <= e)%Z ->
  (0 < shr_m (fst (shr_fexp prec emax (Zpos m) e l)))%Z
  /\ (emin <= snd (shr_fexp prec emax (Zpos m) e l))%Z.
Proof.
  intros He. unfold shr_fexp, shr. cbn [Zdigits2].
  pose proof (digits2_pos_spec m) as Hd.
  destruct (fexp prec emax (Zpos (digits2_pos m) + e) - e)%Z as [|p|p] eqn:E;
    cbn [fst snd]; rewrite ?shr_record_of_loc_m; try (split; lia).
  unfold fexp, SpecFloat.emin, prec, emax in *.
  rewrite iter_pos_shr_1_m by (rewrite shr_record_of_loc_m; lia).
  rewrite shr_record_of_loc_m. split; [|lia].
  apply Z.div_str_pos. split; [apply Z.pow_pos_nonneg; lia|].
  apply Z.le_trans with (2 ^ (Zpos (digits2_pos m) - 1))%Z; [|lia].
  apply Z.pow_le_mono_r; lia.
Qed.

Lemma round_nearest_even_pos (m : Z) (l : location) :
  (0 < m)%Z -> (0 < round_nearest_even m l)%Z.
Proof.
  intros H. destruct l as [|[| |]]; cbn [round_nearest_even]; try lia.
  destruct (Z.even m); lia.
Qed.

(** Rounding a positive mantissa never gives zero or NaN: the result is a
    finite number or, on overflow, an infinity. *)
Lemma binary_round_aux_nonzero (sx : bool) (m : positive) (e : Z)
  (l : location) :
  (emin <= e)%Z ->
  nonzero_number (binary_round_aux prec emax sx (Zpos m) e l) = true.
Proof.
  intros He. unfold binary_round_aux.
  destruct (shr_fexp_pos m e l He) as [H1 H2].
  destruct (shr_fexp prec emax (Zpos m) e l) as [mrs' e'].
  cbn [fst snd] in H1, H2.
  pose proof (round_nearest_even_pos _ (loc_of_shr_record mrs') H1) as H3.
  destruct (round_nearest_even (shr_m mrs') (loc_of_shr_record mrs'))
    as [|q|q]; try lia.
  destruct (shr_fexp_pos q e' loc_Exact H2) as [H4 _].
  destruct (shr_fexp prec emax (Zpos q) e' loc_Exact) as [mrs'' e''].
  cbn [fst] in H4.
  destruct (shr_m mrs'') as [|r|r]; try lia.
  destruct (e'' <=? emax - prec)%Z; reflexivity.
Qed.

Lemma binary_normalize_nonzero (m e : Z) :
  m <> 0%Z -> (emin <= e)%Z ->
  nonzero_number (binary_normalize prec emax m e false) = true.
Proof.
  intros Hm He.
  assert (H : forall s p, nonzero_number (binary_round prec emax s p e) = true).
  { intros s p. unfold binary_round.
    pose proof (shl_align_exponent p e
                  (fexp prec emax (Zpos (digits2_pos p) + e))) as Hz.
    destruct (shl_align p e (fexp prec emax (Zpos (digits2_pos p) + e)))
      as [mz ez].
    cbn [snd] in Hz. apply binary_round_aux_nonzero.
    unfold fexp, SpecFloat.emin, prec, emax in *. lia. }
  destruct m as [|p|p]; [contradiction Hm; reflexivity| |]; apply H.
Qed.

(** What validity says of a finite float. *)
Lemma valid_finite (s : bool) (m : positive) (e : Z) :
  valid_binary (S754_finite s m e) = true ->
  (-1074 <= e <= 971)%Z
  /\ (Zpos m < 2 ^ 53)%Z
  /\ ((-1074 < e)%Z -> (2 ^ 52 <= Zpos m)%Z).
Proof.
  unfold SpecFloat.valid_binary, bounded, canonical_mantissa, fexp,
    SpecFloat.emin, prec, emax.
  intros H. apply andb_prop in H. destruct H as [H1 H2].
  apply Z.eqb_eq in H1. apply Z.leb_le in H2.
  pose proof (digits2_pos_spec m) as Hd.
  split; [lia|]. split.
  - apply Z.lt_le_trans with (2 ^ Zpos (digits2_pos m))%Z; [lia|].
    apply Z.pow_le_mono_r; lia.
  - intros He.
    replace 52%Z with (Zpos (digits2_pos m) - 1)%Z by lia. lia.
Qed.

(** Two different canonical mantissa-exponent pairs denote different
    numbers, also after alignment to the smaller exponent. *)
Lemma aligned_differ (s s0 : bool) (m m0 : positive) (e e0 : Z) :
  valid_binary (S754_finite s m e) = true ->
  valid_binary (S754_finite s0 m0 e0) = true ->
  e <> e0 \/ m <> m0 ->
  (Zpos m * 2 ^ (e - Z.min e e0) <> Zpos m0 * 2 ^ (e0 - Z.min e e0))%Z.
Proof.
  intros Hv Hv0 Hne.
  destruct (valid_finite _ _ _ Hv) as [He [Hm Hm']].
  destruct (valid_finite _ _ _ Hv0) as [He0 [Hm0 Hm0']].
  assert (Hstep : forall a b : Z, (a < b)%Z -> (2 <= 2 ^ (b - a))%Z).
  { intros a b Hab. change 2%Z with (2 ^ 1)%Z at 1.
    apply Z.pow_le_mono_r; lia. }
  assert (H53 : (2 ^ 53 = 2 * 2 ^ 52)%Z) by reflexivity.
  destruct (Z.lt_trichotomy e e0) as [Hlt|[Heq|Hgt]].
  - replace (Z.min e e0) with e by lia.
    replace (e - e)%Z with 0%Z by lia. rewrite Z.pow_0_r.
    specialize (Hm0' ltac:(lia)). specialize (Hstep e e0 Hlt). nia.
  - subst e0. replace (Z.min e e) with e by lia.
    replace (e - e)%Z with 0%Z by lia. rewrite Z.pow_0_r.
    destruct Hne as [Hne|Hne]; [contradiction Hne; reflexivity|].
    intros H. apply Hne. lia.
  - replace (Z.min e e0) with e0 by lia.
    replace (e0 - e0)%Z with 0%Z by lia. rewrite Z.pow_0_r.
    specialize (Hm' ltac:(lia)). specialize (Hstep e0 e Hgt). nia.
Qed.

Lemma SFeqb_refl_finite (s : bool) (m : positive) (e : Z) :
  SFeqb (S754_finite s m e) (S754_finite s m e) = true.
Proof.
  unfold SFeqb, SFcompare.
  rewrite Z.compare_refl, Pos.compare_cont_refl. destruct s; reflexivity.
Qed.

(** The difference of two different numbers is a number other than zero:
    subtraction is exact up to rounding, and a difference that is not zero
    is at least the smallest subnormal. *)
Lemma SFsub_nonzero (x y : spec_float) :
  valid_binary x = true -> valid_binary y = true ->
  x <> S754_nan -> y <> S754_nan ->
  SFeqb x y = false ->
  nonzero_number (SFsub prec emax x y) = true.
Proof.
  intros Hx Hy Hnx Hny Hne.
  destruct x as [sx|sx| |sx mx ex], y as [sy|sy| |sy my ey];
    try congruence; try reflexivity;
    try (destruct sx, sy; try reflexivity; discriminate Hne).
  cbn [SFsub].
  destruct (valid_finite _ _ _ Hx) as [He _].
  destruct (valid_finite _ _ _ Hy) as [He0 _].
  apply binary_normalize_nonzero;
    [|unfold SpecFloat.emin, prec, emax; lia].
  rewrite !shl_align_spec by lia.
  assert (Ha : (0 < Zpos mx * 2 ^ (ex - Z.min ex ey))%Z)
    by (apply Z.mul_pos_pos; [lia|apply Z.pow_pos_nonneg; lia]).
  assert (Hb : (0 < Zpos my * 2 ^ (ey - Z.min ex ey))%Z)
    by (apply Z.mul_pos_pos; [lia|apply Z.pow_pos_nonneg; lia]).
  assert (Hab : sx = sy ->
                (Zpos mx * 2 ^ (ex - Z.min ex ey)
                 <> Zpos my * 2 ^ (ey - Z.min ex ey))%Z).
  { intros ->. apply (aligned_differ sy sy); try assumption.
    destruct (Z.eq_dec ex ey) as [->|]; [|left; assumption].
    destruct (Pos.eq_dec mx my) as [->|]; [|right; assumption].
    rewrite SFeqb_refl_finite in Hne. discriminate. }
  destruct sx, sy; cbn [cond_Zopp];
    try specialize (Hab eq_refl); lia.
Qed.

(** ** Binary64: the order of the floats *)

Lemma ord_finite_bounds (s : bool) (m : positive) (e : Z) :
  valid_binary (S754_finite s m e) = true ->
  (0 < ord_finite m e < 3000 * 2 ^ 53)%Z.
Proof.
  intros Hv. destruct (valid_finite _ _ _ Hv) as [He [Hm _]].
  unfold ord_finite. nia.
Qed.

Lemma ord_finite_compare (s s0 : bool) (m m0 : positive) (e e0 : Z) :
  valid_binary (S754_finite s m e) = true ->
  valid_binary (S754_finite s0 m0 e0) = true ->
  match (e ?= e0)%Z with
  | Lt => Lt
  | Gt => Gt
  | Eq => Pos.compare_cont Eq m m0
  end = (ord_finite m e ?= ord_finite m0 e0)%Z.
Proof.
  intros Hv Hv0.
  destruct (valid_finite _ _ _ Hv) as [_ [Hm _]].
  destruct (valid_finite _ _ _ Hv0) as [_ [Hm0 _]].
  unfold ord_finite. symmetry.
  destruct (Z.compare_spec e e0) as [->|Hlt|Hgt].
  - rewrite Z.add_compare_mono_l. reflexivity.
  - apply Z.compare_lt_iff. nia.
  - apply Z.compare_gt_iff. nia.
Qed.

(** Comparing two numbers is comparing their ranks. *)
Lemma SFcompare_ord (x y : spec_float) :
  valid_binary x = true -> valid_binary y = true ->
  x <> S754_nan -> y <> S754_nan ->
  SFcompare x y = Some (ord_sf x ?= ord_sf y)%Z.
Proof.
  intros Hx Hy Hnx Hny.
  destruct x as [sx|sx| |sx mx ex], y as [sy|sy| |sy my ey];
    try congruence; cbn [SFcompare ord_sf];
    try (pose proof (ord_finite_bounds _ _ _ Hx) as Bx);
    try (pose proof (ord_finite_bounds _ _ _ Hy) as By).
  - reflexivity.
  - destruct sy; reflexivity.
  - f_equal. destruct sy; symmetry;
      [apply Z.compare_gt_iff|apply Z.compare_lt_iff]; lia.
  - destruct sx; reflexivity.
  - destruct sx, sy; reflexivity.
  - f_equal. destruct sx, sy; symmetry;
      try (apply Z.compare_gt_iff; lia); apply Z.compare_lt_iff; lia.
  - f_equal. destruct sx; symmetry;
      [apply Z.compare_lt_iff|apply Z.compare_gt_iff]; lia.
  - f_equal. destruct sx, sy; symmetry;
      try (apply Z.compare_gt_iff; lia); apply Z.compare_lt_iff; lia.
  - f_equal. destruct sx, sy.
    + rewrite Z.compare_opp, <- (ord_finite_compare _ _ _ _ _ _ Hy Hx).
      rewrite (Z.compare_antisym ex ey), (Pos.compare_cont_antisym mx my Eq).
      destruct (ex ?= ey)%Z; reflexivity.
    + symmetry. apply Z.compare_lt_iff. lia.
    + symmetry. apply Z.compare_gt_iff. lia.
    + apply (ord_finite_compare _ _ _ _ _ _ Hx Hy).
Qed.

Lemma ord_sf_bounds (x : spec_float) :
  valid_binary x = true ->
  (- ord_top < ord_sf x <= ord_top)%Z
  /\ (ord_sf x = ord_top <-> x = S754_nan).
Proof.
  intros Hx. unfold ord_top.
  assert (P : (0 < 2 ^ 53)%Z) by reflexivity.
  destruct x as [s|s| |s m e]; cbn [ord_sf]; unfold ord_top;
    try (pose proof (ord_finite_bounds _ _ _ Hx) as B);
    try destruct s;
    (split; [lia|split; intros H; try discriminate; try reflexivity; lia]).
Qed.

Lemma ord_bounds (x : float) : (- ord_top < ord x <= ord_top)%Z.
Proof. apply ord_sf_bounds, Prim2SF_valid. Qed.

Lemma ord_zero : ord zero = 0%Z.
Proof. reflexivity. Qed.

(** The comparisons of the floats, read on the ranks. *)
Lemma compare_ord (x y : float) :
  SFcompare (Prim2SF x) (Prim2SF y)
  = if ((ord x <? ord_top) && (ord y <? ord_top))%Z
    then Some (ord x ?= ord y)%Z else None.
Proof.
  unfold ord.
  destruct (ord_sf_bounds _ (Prim2SF_valid x)) as [Bx Nx].
  destruct (ord_sf_bounds _ (Prim2SF_valid y)) as [By Ny].
  destruct (Z.ltb_spec (ord_sf (Prim2SF x)) ord_top) as [Hx|Hx].
  - destruct (Z.ltb_spec (ord_sf (Prim2SF y)) ord_top) as [Hy|Hy].
    + apply SFcompare_ord; try apply Prim2SF_valid.
      * intros E. apply Nx in E. lia.
      * intros E. apply Ny in E. lia.
    + assert (E : Prim2SF y = S754_nan) by (apply Ny; lia).
      rewrite E. destruct (Prim2SF x); reflexivity.
  - assert (E : Prim2SF x = S754_nan) by (apply Nx; lia).
    rewrite E. reflexivity.
Qed.

Lemma lt_ord (x y : float) :
  lt x y = ((ord x <? ord y) && (ord y <? ord_top))%Z.
Proof.
  unfold lt. rewrite FloatAxioms.ltb_spec. unfold SFltb. rewrite compare_ord.
  pose proof (ord_bounds x). pose proof (ord_bounds y).
  destruct (Z.ltb_spec (ord x) ord_top), (Z.ltb_spec (ord y) ord_top);
    cbn [andb]; rewrite ?andb_false_r, ?andb_true_r;
    try (symmetry; apply Z.ltb_ge; lia); reflexivity.
Qed.

Lemma gt_ord (x y : float) :
  gt x y = ((ord y <? ord x) && (ord x <? ord_top))%Z.
Proof. apply lt_ord. Qed.

Lemma le_ord (x y : float) :
  le x y = ((ord x <=? ord y) && (ord y <? ord_top))%Z.
Proof.
  unfold le. rewrite FloatAxioms.leb_spec. unfold SFleb. rewrite compare_ord.
  pose proof (ord_bounds x). pose proof (ord_bounds y).
  destruct (Z.ltb_spec (ord x) ord_top), (Z.ltb_spec (ord y) ord_top);
    cbn [andb]; rewrite ?andb_false_r, ?andb_true_r;
    try (symmetry; apply Z.leb_gt; lia); reflexivity.
Qed.

Lemma eqb_ord (x y : float) :
  eqb x y = ((ord x =? ord y) && (ord y <? ord_top))%Z.
Proof.
  unfold eqb. rewrite FloatAxioms.eqb_spec. unfold SFeqb. rewrite compare_ord.
  pose proof (ord_bounds x). pose proof (ord_bounds y).
  destruct (Z.ltb_spec (ord x) ord_top), (Z.ltb_spec (ord y) ord_top);
    cbn [andb]; rewrite ?andb_false_r, ?andb_true_r;
    try (symmetry; apply Z.eqb_neq; lia); try reflexivity.
  rewrite Z.eqb_compare. reflexivity.
Qed.

Lemma neb_ord (x y : float) :
  neb x y = negb ((ord x =? ord y) && (ord y <? ord_top))%Z.
Proof. unfold neb. rewrite eqb_ord. reflexivity. Qed.

Lemma is_nan_ord (x : float) : is_nan x = (ord x =? ord_top)%Z.
Proof.
  unfold is_nan. rewrite eqb_ord, Z.eqb_refl. cbn [andb].
  pose proof (ord_bounds x).
  destruct (Z.ltb_spec (ord x) ord_top), (Z.eqb_spec (ord x) ord_top);
    try reflexivity; lia.
Qed.

(** NumPy's sort order is the order of the ranks. *)
Lemma less_ord (a b : float) : less a b = (ord a <? ord b)%Z.
Proof.
  unfold less. rewrite lt_ord, !is_nan_ord.
  pose proof (ord_bounds a). pose proof (ord_bounds b).
  destruct (Z.ltb_spec (ord a) (ord b)), (Z.ltb_spec (ord b) ord_top),
    (Z.eqb_spec (ord b) ord_top), (Z.eqb_spec (ord a) ord_top);
    try reflexivity; lia.
Qed.

(** Floats with the same rank that are not zero are the same float. *)
Lemma ord_sf_inj (x y : spec_float) :
  valid_binary x = true -> valid_binary y = true ->
  ord_sf x = ord_sf y -> ord_sf x <> 0%Z -> x = y.
Proof.
  intros Hx Hy E Hz. unfold ord_top in *.
  assert (P : (0 < 2 ^ 53)%Z) by reflexivity.
  destruct x as [sx|sx| |sx mx ex], y as [sy|sy| |sy my ey];
    cbn [ord_sf] in *; unfold ord_top in *;
    try (pose proof (ord_finite_bounds _ _ _ Hx) as Bx);
    try (pose proof (ord_finite_bounds _ _ _ Hy) as By);
    try destruct sx; try destruct sy; try reflexivity; try lia.
  - assert (C : (ord_finite mx ex ?= ord_finite my ey)%Z = Eq)
      by (apply Z.compare_eq_iff; lia).
    rewrite <- (ord_finite_compare _ _ _ _ _ _ Hx Hy) in C.
    destruct (Z.compare_spec ex ey) as [->| |]; try discriminate.
    apply Pos.compare_eq in C. subst. reflexivity.
  - assert (C : (ord_finite mx ex ?= ord_finite my ey)%Z = Eq)
      by (apply Z.compare_eq_iff; lia).
    rewrite <- (ord_finite_compare _ _ _ _ _ _ Hx Hy) in C.
    destruct (Z.compare_spec ex ey) as [->| |]; try discriminate.
    apply Pos.compare_eq in C. subst. reflexivity.
Qed.

Lemma ord_inj (x y : float) : ord x = ord y -> ord x <> 0%Z -> x = y.
Proof.
  intros E Hz. apply Prim2SF_inj.
  apply ord_sf_inj; try apply Prim2SF_valid; assumption.
Qed.

(** Every comparison of floats becomes a comparison of ranks. *)
Ltac to_ord :=
  unfold sign_change, rises, falls in *;
  rewrite ?lt_ord, ?gt_ord, ?le_ord, ?eqb_ord, ?neb_ord, ?is_nan_ord,
    ?less_ord, ?ord_zero in *.

Lemma ord_top_pos : (0 < ord_top)%Z.
Proof. reflexivity. Qed.

(** The bounds of every rank in sight. *)
Ltac ord_bounds_all :=
  repeat match goal with
    | |- context [ord ?x] =>
        lazymatch goal with
        | _ : (- ord_top < ord x <= ord_top)%Z |- _ => fail
        | _ => pose proof (ord_bounds x)
        end
    | _ : context [ord ?x] |- _ =>
        lazymatch goal with
        | _ : (- ord_top < ord x <= ord_top)%Z |- _ => fail
        | _ => pose proof (ord_bounds x)
        end
    end.

(** Goals on comparisons of floats, decided on the ranks. *)
Ltac float_lia := pose proof ord_top_pos; to_ord; ord_bounds_all; lia.

Lemma Prim2SF_nan : Prim2SF nan = S754_nan.
Proof. reflexivity. Qed.

Lemma is_nan_Prim2SF (x : float) :
  is_nan x = true <-> Prim2SF x = S754_nan.
Proof.
  rewrite is_nan_ord, Z.eqb_eq. unfold ord.
  apply ord_sf_bounds, Prim2SF_valid.
Qed.

Lemma is_nan_nan : is_nan nan = true.
Proof. reflexivity. Qed.

(** ** Special values *)

Lemma sub_nan_l (y : float) : sub nan y = nan.
Proof.
  apply Prim2SF_inj. unfold sub. rewrite sub_spec, Prim2SF_nan. reflexivity.
Qed.

Lemma sub_is_nan_l (x y : float) :
  is_nan x = true -> is_nan (sub x y) = true.
Proof.
  rewrite !is_nan_Prim2SF. unfold sub. rewrite sub_spec.
  intros ->. reflexivity.
Qed.

Lemma nth_diff (temp_interp : list float) (melt_temp : float) (i : nat) :
  nth i (map (fun v => sub v melt_temp) temp_interp) nan
  = sub (nth i temp_interp nan) melt_temp.
Proof.
  rewrite <- (sub_nan_l melt_temp) at 1.
  apply (map_nth (fun v => sub v melt_temp)).
Qed.

(** A sign change needs two comparable numbers. *)
Lemma sign_change_not_nan (d0 d1 : float) :
  sign_change d0 d1 = true -> is_nan d0 = false /\ is_nan d1 = false.
Proof.
  pose proof ord_top_pos. to_ord. lia.
Qed.

(** The test of line 82 holds whenever the test of line 80 does. *)
Lemma sign_change_neb (d0 d1 : float) :
  sign_change d0 d1 = true -> neb d1 d0 = true.
Proof.
  pose proof ord_top_pos. to_ord. lia.
Qed.

(** What the loop body appends, without the inner test. *)
Lemma crossing_at_cases (time_interp temp_interp : list float)
  (melt_temp : float) (i : nat) :
  let d := fun k => sub (nth k temp_interp nan) melt_temp in
  crossing_at time_interp temp_interp
    (map (fun v => sub v melt_temp) temp_interp) melt_temp i
  = if rises (d i) (d (i + 1)%nat)
    then [(crossing_time_at time_interp temp_interp melt_temp i, up)]
    else if falls (d i) (d (i + 1)%nat)
         then [(crossing_time_at time_interp temp_interp melt_temp i, down)]
         else [].
Proof.
  intros d. unfold crossing_at. rewrite !nth_diff. fold (d i) (d (i + 1)%nat).
  destruct (sign_change (d i) (d (i + 1)%nat)) eqn:Hs.
  - rewrite (sign_change_neb _ _ Hs).
    unfold sign_change in Hs.
    destruct (rises (d i) (d (i + 1)%nat)); [reflexivity|].
    simpl in Hs. rewrite Hs. reflexivity.
  - unfold sign_change in Hs. apply orb_false_iff in Hs.
    destruct Hs as [-> ->]. reflexivity.
Qed.

Lemma ord_zero_Prim2SF (x : float) :
  ord x = 0%Z -> exists s, Prim2SF x = S754_zero s.
Proof.
  unfold ord. pose proof (Prim2SF_valid x) as Hv.
  destruct (Prim2SF x) as [s|s| |s m e]; cbn [ord_sf]; intros H.
  - exists s. reflexivity.
  - destruct s; discriminate.
  - discriminate.
  - pose proof (ord_finite_bounds _ _ _ Hv). destruct s; lia.
Qed.

Lemma nonzero_number_ord (x : float) :
  nonzero_number (Prim2SF x) = true ->
  ord x <> 0%Z /\ ord x <> ord_top.
Proof.
  unfold ord. pose proof (Prim2SF_valid x) as Hv.
  destruct (Prim2SF x) as [s|s| |s m e]; cbn [ord_sf nonzero_number];
    intros H; try discriminate.
  - destruct s; split; discriminate.
  - pose proof (ord_finite_bounds _ _ _ Hv). unfold ord_top.
    destruct s; lia.
Qed.

(** Two zeros less the same number have the same rank. *)
Lemma sub_zeros_same_rank (v0 v1 m : float) :
  ord v0 = 0%Z -> ord v1 = 0%Z -> ord (sub v0 m) = ord (sub v1 m).
Proof.
  intros H0 H1.
  destruct (ord_zero_Prim2SF _ H0) as [s0 E0].
  destruct (ord_zero_Prim2SF _ H1) as [s1 E1].
  unfold ord, sub. rewrite !sub_spec, E0, E1.
  destruct (Prim2SF m) as [s|s| |s p e]; try reflexivity.
  destruct s0, s1, s; reflexivity.
Qed.

(** The difference of two floats that compare different is a number other
    than zero. *)
Lemma sub_of_different (x y : float) :
  is_nan x = false -> is_nan y = false -> eqb x y = false ->
  is_nan (sub x y) = false /\ eqb (sub x y) zero = false.
Proof.
  intros Hx Hy Hne.
  assert (Hn : nonzero_number (Prim2SF (sub x y)) = true).
  { unfold sub. rewrite sub_spec. apply SFsub_nonzero.
    - apply Prim2SF_valid.
    - apply Prim2SF_valid.
    - intros E. apply is_nan_Prim2SF in E. congruence.
    - intros E. apply is_nan_Prim2SF in E. congruence.
    - unfold eqb in Hne. rewrite FloatAxioms.eqb_spec in Hne. exact Hne. }
  apply nonzero_number_ord in Hn. pose proof ord_top_pos.
  to_ord. lia.
Qed.

(** Two values on the two sides of the melt line differ, and their
    difference is a number other than zero. *)
Lemma sign_change_values_differ (v0 v1 m : float) :
  sign_change (sub v0 m) (sub v1 m) = true ->
  neb v1 v0 = true
  /\ is_nan (sub v1 v0) = false
  /\ eqb (sub v1 v0) zero = false.
Proof.
  intros Hs.
  destruct (sign_change_not_nan _ _ Hs) as [Hn0 Hn1].
  pose proof (sign_change_neb _ _ Hs) as Hd.
  assert (Hv0 : is_nan v0 = false).
  { destruct (is_nan v0) eqn:E; [|reflexivity].
    rewrite (sub_is_nan_l v0 m E) in Hn0. discriminate. }
  assert (Hv1 : is_nan v1 = false).
  { destruct (is_nan v1) eqn:E; [|reflexivity].
    rewrite (sub_is_nan_l v1 m E) in Hn1. discriminate. }
  assert (Hne : eqb v1 v0 = false).
  { destruct (eqb v1 v0) eqn:E; [|reflexivity]. exfalso.
    assert (Eo : ord v1 = ord v0) by (to_ord; lia).
    assert (Ed : ord (sub v1 m) = ord (sub v0 m)).
    { destruct (Z.eq_dec (ord v1) 0) as [Hz|Hz].
      - apply sub_zeros_same_rank; lia.
      - rewrite (ord_inj v1 v0 Eo Hz). reflexivity. }
    to_ord. lia. }
  split; [unfold neb; rewrite Hne; reflexivity|].
  apply sub_of_different; assumption.
Qed.

(** ** Detection (C1, C7) *)

(** C1.  For every neighbouring pair of resampled points, with
    [d0 = value0 - melt_temp] and [d1 = value1 - melt_temp], the detection
    loop records a crossing exactly when [d0 <= 0 and d1 > 0] (recorded as
    "up") or [d0 > 0 and d1 <= 0] (recorded as "down"), and nothing
    otherwise; so every recorded crossing comes from a pair of neighbouring
    points that satisfies this condition, with the matching label. *)
Theorem detect_crossings_sign_change :
  forall (time_interp temp_interp : list float) (melt_temp : float),
    let d := fun i => sub (nth i temp_interp nan) melt_temp in
    let t := crossing_time_at time_interp temp_interp melt_temp in
    detect_crossings time_interp temp_interp melt_temp
    = flat_map (fun i =>
                  if le (d i) zero && gt (d (i + 1)%nat) zero then [(t i, up)]
                  else if gt (d i) zero && le (d (i + 1)%nat) zero
                       then [(t i, down)]
                       else [])
               (seq 0 (length temp_interp - 1))
    /\ forall c, In c (detect_crossings time_interp temp_interp melt_temp) ->
         exists i, (i + 1 < length temp_interp)%nat
                   /\ fst c = t i
                   /\ ((snd c = up
                        /\ le (d i) zero = true
                        /\ gt (d (i + 1)%nat) zero = true)
                       \/ (snd c = down
                           /\ gt (d i) zero = true
                           /\ le (d (i + 1)%nat) zero = true)).
Proof.
  intros time_interp temp_interp melt_temp d t.
  assert (Heq : detect_crossings time_interp temp_interp melt_temp
                = flat_map (fun i =>
                    if le (d i) zero && gt (d (i + 1)%nat) zero then [(t i, up)]
                    else if gt (d i) zero && le (d (i + 1)%nat) zero
                         then [(t i, down)]
                         else [])
                    (seq 0 (length temp_interp - 1))).
  { unfold detect_crossings. rewrite length_map.
    apply flat_map_ext. intros i.
    apply (crossing_at_cases time_interp temp_interp melt_temp i). }
  split; [exact Heq|].
  intros c Hc. rewrite Heq in Hc.
  apply in_flat_map in Hc. destruct Hc as [i [Hi Hc]].
  apply in_seq in Hi. exists i.
  split; [lia|].
  destruct (le (d i) zero && gt (d (i + 1)%nat) zero) eqn:Hup.
  - destruct Hc as [<-|[]]. apply andb_prop in Hup.
    split; [reflexivity|]. left. tauto.
  - destruct (gt (d i) zero && le (d (i + 1)%nat) zero) eqn:Hdown.
    + destruct Hc as [<-|[]]. apply andb_prop in Hdown.
      split; [reflexivity|]. right. tauto.
    + destruct Hc.
Qed.

(** C7.  Whenever the sign-change test of line 80 holds at index [i], the
    inner test [diff[i+1] != diff[i]] holds too, the two resampled values
    differ, the divisor [temp_interp[i+1] - temp_interp[i]] is a number
    other than zero, and the iteration records its crossing: the inner
    test never drops a detected sign change. *)
Theorem division_guard_always_passes :
  forall (time_interp temp_interp : list float) (melt_temp : float) (i : nat),
    let diff := map (fun v => sub v melt_temp) temp_interp in
    let v0 := nth i temp_interp nan in
    let v1 := nth (i + 1) temp_interp nan in
    sign_change (nth i diff nan) (nth (i + 1) diff nan) = true ->
    neb (nth (i + 1) diff nan) (nth i diff nan) = true
    /\ neb v1 v0 = true
    /\ is_nan (sub v1 v0) = false
    /\ eqb (sub v1 v0) zero = false
    /\ exists ctype,
         crossing_at time_interp temp_interp diff melt_temp i
         = [(crossing_time_at time_interp temp_interp melt_temp i, ctype)].
Proof.
  intros time_interp temp_interp melt_temp i diff v0 v1 Hs.
  split; [apply sign_change_neb; exact Hs|].
  assert (Hv : sign_change (sub v0 melt_temp) (sub v1 melt_temp) = true).
  { subst diff v0 v1. rewrite <- !nth_diff. exact Hs. }
  destruct (sign_change_values_differ _ _ _ Hv) as [Hne [Hnan Hz]].
  repeat split; try assumption.
  unfold crossing_at. fold diff. rewrite Hs, (sign_change_neb _ _ Hs).
  eexists. reflexivity.
Qed.

Lemma division_guard_always_passes_witness :
  let time_interp := [0; 1]%float in
  let temp_interp := [0; 2000]%float in
  let diff := map (fun v => sub v 1000%float) temp_interp in
  sign_change (nth 0 diff nan) (nth 1 diff nan) = true
  /\ neb (nth 1 diff nan) (nth 0 diff nan) = true
  /\ neb (nth 1 temp_interp nan) (nth 0 temp_interp nan) = true
  /\ crossing_at time_interp temp_interp diff 1000%float 0
     = [(0.5%float, up)].
Proof.
  assert (Hs : sign_change
                 (nth 0 (map (fun v => sub v 1000%float) [0; 2000]%float) nan)
                 (nth 1 (map (fun v => sub v 1000%float) [0; 2000]%float) nan)
               = true) by reflexivity.
  destruct (division_guard_always_passes
              [0; 1]%float [0; 2000]%float 1000%float 0 Hs)
    as [Hd [Hne _]].
  split; [exact Hs|]. split; [exact Hd|]. split; [exact Hne|]. reflexivity.
Defined.

(** ** Pairing (C2) *)

Lemma skipn_cons_nth {A : Type} (d : A) (l : list A) (i : nat) :
  (i < length l)%nat -> skipn i l = nth i l d :: skipn (S i) l.
Proof.
  revert i. induction l as [|a l IH]; intros i Hi; simpl in Hi; [lia|].
  destruct i as [|i]; [reflexivity|].
  simpl. apply IH. lia.
Qed.

Lemma pair_intervals_from_short (k : nat) (cs : list crossing) :
  (length cs <= 1)%nat -> pair_intervals_from k cs = [].
Proof.
  destruct cs as [|[t0 [|]] [|c cs]]; simpl; intros H;
    try reflexivity; lia.
Qed.

(** One step of the specification's scan on a list with two crossings at
    its head. *)
Lemma pair_intervals_from_step (k : nat) (c0 c1 : crossing)
  (rest : list crossing) :
  pair_intervals_from k (c0 :: c1 :: rest)
  = if is_up (snd c0) && is_down (snd c1)
    then mk_period (fst c0) (fst c1) (sub (fst c1) (fst c0)) (k + 1)
         :: pair_intervals_from (k + 1) rest
    else pair_intervals_from k (c1 :: rest).
Proof.
  destruct c0 as [t0 [|]], c1 as [t1 [|]]; reflexivity.
Qed.

(** The cursor loop, started at cursor [i] with the periods [ps] already
    emitted, returns [ps] followed by what the specification's scan emits
    on the crossings from [i] on. *)
Lemma pairing_loop_refines (fuel : nat) :
  forall (cs : list crossing) (i : nat) (ps : list period),
    (length cs - i <= fuel)%nat ->
    pairing_loop fuel cs i ps
    = Some (ps ++ pair_intervals_from (length ps) (skipn i cs)).
Proof.
  induction fuel as [|fuel IH]; intros cs i ps Hfuel.
  - simpl. destruct (Z.ltb_spec (Z.of_nat i) (Z.of_nat (length cs) - 1));
      [lia|].
    rewrite pair_intervals_from_short, app_nil_r; [reflexivity|].
    rewrite length_skipn. lia.
  - simpl. destruct (Z.ltb_spec (Z.of_nat i) (Z.of_nat (length cs) - 1)).
    + rewrite (skipn_cons_nth (A:=crossing) (nan, down) cs i) by lia.
      rewrite (skipn_cons_nth (A:=crossing) (nan, down) cs (S i)) by lia.
      rewrite pair_intervals_from_step.
      replace (i + 1)%nat with (S i) by lia.
      destruct (is_up (snd (nth i cs (nan, down)))
                && is_down (snd (nth (S i) cs (nan, down)))).
      * rewrite IH by lia. rewrite length_app, <- app_assoc. simpl.
        replace (i + 2)%nat with (S (S i)) by lia. reflexivity.
      * rewrite IH by lia.
        rewrite (skipn_cons_nth (A:=crossing) (nan, down) cs (S i)) by lia. reflexivity.
    + rewrite pair_intervals_from_short, app_nil_r; [reflexivity|].
      rewrite length_skipn. lia.
Qed.

Lemma pairing_loop_total (cs : list crossing) (extra : nat) :
  pairing_loop (length cs + extra) cs 0 [] = Some (pair_intervals cs).
Proof.
  rewrite pairing_loop_refines by lia. reflexivity.
Qed.

(** C2.  The cursor loop of lines 93-110 computes the scan the
    specification describes: started at cursor 0 with enough iterations
    allowed, it returns exactly the periods of [pair_intervals], where an
    "up" directly followed by a "down" emits the period from the first time
    to the second, with their difference as duration and numbered one more
    than the periods emitted before, and moves on by two, and anything else
    moves on by one and emits nothing.  On [up@1, down@2, up@3, down@4] it
    returns the two periods (1,2) and (3,4); on [up@1, up@2, down@3] it
    returns the one period (2,3). *)
Theorem pairing_loop_is_greedy_scan :
  (forall (cs : list crossing) (extra : nat),
      pairing_loop (length cs + extra) cs 0 [] = Some (pair_intervals cs))
  /\ (forall (k : nat) (c0 c1 : crossing) (rest : list crossing),
         pair_intervals_from k (c0 :: c1 :: rest)
         = if is_up (snd c0) && is_down (snd c1)
           then mk_period (fst c0) (fst c1) (sub (fst c1) (fst c0)) (k + 1)
                :: pair_intervals_from (k + 1) rest
           else pair_intervals_from k (c1 :: rest))
  /\ (forall (k : nat) (c0 : crossing), pair_intervals_from k [c0] = [])
  /\ (forall k : nat, pair_intervals_from k [] = [])
  /\ pairing_loop 4 [(1, up); (2, down); (3, up); (4, down)]%float
       0 []
     = Some [mk_period 1 2 1 1; mk_period 3 4 1 2]%float
  /\ pairing_loop 3 [(1, up); (2, up); (3, down)]%float 0 []
     = Some [mk_period 2 3 1 1]%float.
Proof.
  split; [exact pairing_loop_total|].
  split; [exact pair_intervals_from_step|].
  split.
  { intros k c0. apply pair_intervals_from_short. simpl. lia. }
  repeat split; reflexivity.
Qed.

(** ** Sorting and indexing *)

Lemma take_indices_in_range {A : Type} (d : A) (arr : list A)
  (idx : list nat) :
  (forall i, In i idx -> (i < length arr)%nat) ->
  take_indices arr idx = Some (map (fun i => nth i arr d) idx).
Proof.
  induction idx as [|i idx IH]; intros Hin; [reflexivity|].
  simpl. rewrite IH by (intros j Hj; apply Hin; right; exact Hj).
  assert (Hi : (i < length arr)%nat) by (apply Hin; left; reflexivity).
  rewrite (nth_error_nth' arr d Hi). reflexivity.
Qed.

(** An indexing that succeeds has read every index in range. *)
Lemma take_indices_some {A : Type} (d : A) (arr : list A) (idx : list nat)
  (r : list A) :
  take_indices arr idx = Some r ->
  r = map (fun i => nth i arr d) idx
  /\ forall i, In i idx -> (i < length arr)%nat.
Proof.
  revert r. induction idx as [|i idx IH]; intros r H.
  - injection H as <-. split; [reflexivity|]. intros i [].
  - simpl in H. destruct (nth_error arr i) as [a|] eqn:E; [|discriminate].
    destruct (take_indices arr idx) as [r'|]; [|discriminate].
    injection H as <-. destruct (IH r' eq_refl) as [-> Hr].
    split.
    + simpl. f_equal. symmetry. apply nth_error_nth. exact E.
    + intros j [<-|Hj]; [|apply Hr; exact Hj].
      apply nth_error_Some. congruence.
Qed.

Lemma take_indices_out_of_range {A : Type} (arr : list A) (idx : list nat)
  (i : nat) :
  In i idx -> (length arr <= i)%nat -> take_indices arr idx = None.
Proof.
  induction idx as [|j idx IH]; intros Hin Hi; [destruct Hin|].
  simpl. destruct Hin as [->|Hin].
  - apply nth_error_None in Hi. rewrite Hi. reflexivity.
  - rewrite (IH Hin Hi). destruct (nth_error arr j); reflexivity.
Qed.

Lemma take_indices_firstn {A : Type} (arr : list A) (idx : list nat)
  (n : nat) :
  (forall i, In i idx -> (i < n)%nat) ->
  take_indices (firstn n arr) idx = take_indices arr idx.
Proof.
  induction idx as [|j idx IH]; intros Hin; [reflexivity|].
  simpl. rewrite IH by (intros i Hi; apply Hin; right; exact Hi).
  assert (Hj : (j < n)%nat) by (apply Hin; left; reflexivity).
  replace (nth_error (firstn n arr) j) with (nth_error arr j);
    [reflexivity|].
  clear -Hj. revert j arr Hj.
  induction n as [|n IHn]; intros j arr Hj; [lia|].
  destruct arr as [|x arr]; [reflexivity|].
  destruct j as [|j]; [reflexivity|].
  simpl. apply IHn. lia.
Qed.

Lemma is_index_permutation_perm (n : nat) (idx : list nat) :
  is_index_permutation n idx = true -> Permutation (seq 0 n) idx.
Proof.
  unfold is_index_permutation. intros H.
  apply andb_prop in H. destruct H as [Hlen Hall].
  apply Nat.eqb_eq in Hlen.
  apply NoDup_Permutation_bis.
  - apply seq_NoDup.
  - rewrite length_seq. lia.
  - intros i Hi. rewrite forallb_forall in Hall.
    specialize (Hall i Hi). apply existsb_exists in Hall.
    destruct Hall as [j [Hj Heq]]. apply Nat.eqb_eq in Heq. subst j. exact Hj.
Qed.

Lemma argsort_ok_perm (time_data : list float) (idx : list nat) :
  argsort_ok time_data idx = true ->
  Permutation (seq 0 (length time_data)) idx.
Proof.
  unfold argsort_ok. intros H. apply andb_prop in H.
  apply is_index_permutation_perm. tauto.
Qed.

Lemma argsort_ok_length (time_data : list float) (idx : list nat) :
  argsort_ok time_data idx = true -> length idx = length time_data.
Proof.
  intros H. apply argsort_ok_perm, Permutation_length in H.
  rewrite length_seq in H. lia.
Qed.

Lemma argsort_ok_in_range (time_data : list float) (idx : list nat) :
  argsort_ok time_data idx = true ->
  forall i, In i idx -> (i < length time_data)%nat.
Proof.
  intros H i Hi. apply argsort_ok_perm in H.
  apply Permutation_sym in H. apply (Permutation_in _ H) in Hi.
  apply in_seq in Hi. lia.
Qed.

Lemma argsort_ok_sorted (time_data : list float) (idx : list nat) :
  argsort_ok time_data idx = true ->
  sorted_nan_last (sorted_by idx time_data) = true.
Proof.
  unfold argsort_ok. intros H. apply andb_prop in H. tauto.
Qed.

Lemma nth_map_in_range {A B : Type} (f : A -> B) (l : list A) (dA : A)
  (dB : B) (k : nat) :
  (k < length l)%nat -> nth k (map f l) dB = f (nth k l dA).
Proof.
  intros Hk. rewrite (nth_indep _ dB (f dA)) by (rewrite length_map; exact Hk).
  apply map_nth.
Qed.

Lemma length_linspace (start stop : float) (num : nat) :
  length (linspace start stop num) = num.
Proof. unfold linspace. rewrite length_map, length_seq. reflexivity. Qed.

Lemma length_resample (sorted_time sorted_temp : list float) :
  length (fst (resample sorted_time sorted_temp)) = (length sorted_time * 10)%nat
  /\ length (snd (resample sorted_time sorted_temp))
     = (length sorted_time * 10)%nat.
Proof.
  unfold resample. cbn [fst snd].
  rewrite length_map, length_linspace. split; reflexivity.
Qed.

(** ** The detection scan, index by index *)

Lemma detect_crossings_scan (time_interp temp_interp : list float)
  (melt_temp : float) :
  detect_crossings time_interp temp_interp melt_temp
  = scan (fun i => sub (nth i temp_interp nan) melt_temp)
         (crossing_time_at time_interp temp_interp melt_temp)
         (length temp_interp - 1) 0.
Proof.
  unfold detect_crossings, scan. rewrite length_map.
  apply flat_map_ext. intros i.
  apply (crossing_at_cases time_interp temp_interp melt_temp i).
Qed.

Lemma scan_S (d t : nat -> float) (n a : nat) :
  scan d t (S n) a = scan_at d t a ++ scan d t n (S a).
Proof. reflexivity. Qed.

Lemma scan_at_length (d t : nat -> float) (i : nat) :
  (length (scan_at d t i) <= 1)%nat.
Proof.
  unfold scan_at. destruct (rises _ _); [simpl; lia|].
  destruct (falls _ _); simpl; lia.
Qed.

Lemma scan_length (d t : nat -> float) (n a : nat) :
  (length (scan d t n a) <= n)%nat.
Proof.
  revert a. induction n as [|n IH]; intros a; [simpl; lia|].
  rewrite scan_S, length_app.
  pose proof (scan_at_length d t a). specialize (IH (S a)). lia.
Qed.

Lemma le_zero_negb_gt (x : float) :
  is_nan x = false -> le x zero = negb (gt x zero).
Proof.
  intros H.
  destruct (le x zero) eqn:L, (gt x zero) eqn:G; try reflexivity;
    exfalso; float_lia.
Qed.

(** Without NaN in the window, the recorded types alternate, and the first
    recorded type is "down" when the signal starts above the melt line and
    "up" otherwise. *)
Lemma scan_alternates (d t : nat -> float) (n : nat) :
  forall a,
    (forall k, (a <= k <= a + n)%nat -> is_nan (d k) = false) ->
    alternating (map snd (scan d t n a)) = true
    /\ forall ty rest,
         map snd (scan d t n a) = ty :: rest ->
         ty = if gt (d a) zero then down else up.
Proof.
  induction n as [|n IH]; intros a Hnan.
  - split; [reflexivity|]. intros ty rest H. discriminate H.
  - destruct (IH (S a)) as [Halt Hhead].
    { intros k Hk. apply Hnan. lia. }
    assert (Ha : is_nan (d a) = false) by (apply Hnan; lia).
    assert (Hb : is_nan (d (a + 1)%nat) = false) by (apply Hnan; lia).
    rewrite scan_S. unfold scan_at, rises, falls.
    rewrite (le_zero_negb_gt _ Ha), (le_zero_negb_gt _ Hb).
    replace (a + 1)%nat with (S a) in * by lia.
    destruct (gt (d a) zero) eqn:Ga, (gt (d (S a)) zero) eqn:Gb; simpl.
    + split; [exact Halt|]. exact Hhead.
    + split.
      * destruct (map snd (scan d t n (S a))) as [|ty rest] eqn:E;
          [reflexivity|].
        pose proof (Hhead ty rest eq_refl) as Hty. subst ty. exact Halt.
      * intros ty rest H. injection H as <- _. reflexivity.
    + split.
      * destruct (map snd (scan d t n (S a))) as [|ty rest] eqn:E;
          [reflexivity|].
        pose proof (Hhead ty rest eq_refl) as Hty. subst ty. exact Halt.
      * intros ty rest H. injection H as <- _. reflexivity.
    + split; [exact Halt|]. exact Hhead.
Qed.

Lemma increasing_seq (n a : nat) : increasing (seq a n) = true.
Proof.
  revert a. induction n as [|n IH]; intros a; [reflexivity|].
  destruct n as [|n]; [reflexivity|].
  change (increasing (seq a (S (S n))))
    with ((a <? S a)%nat && increasing (seq (S a) (S n))).
  rewrite IH, andb_true_r. apply Nat.ltb_lt. lia.
Qed.

Lemma increasing_cons (j : nat) (js : list nat) :
  increasing (j :: js) = true <->
  Forall (fun k => (j < k)%nat) js /\ increasing js = true.
Proof.
  revert j. induction js as [|k js IH]; intros j.
  - split; [intros _; split; [constructor|reflexivity]|reflexivity].
  - change (increasing (j :: k :: js))
      with ((j <? k)%nat && increasing (k :: js)).
    rewrite andb_true_iff, Nat.ltb_lt. split.
    + intros [Hjk Hk]. split; [|exact Hk].
      constructor; [exact Hjk|].
      apply IH in Hk. destruct Hk as [Hall _].
      eapply Forall_impl; [|exact Hall]. intros x Hx. simpl in Hx. lia.
    + intros [Hall Hk]. inversion Hall; subst. split; assumption.
Qed.

Lemma increasing_filter (f : nat -> bool) (js : list nat) :
  increasing js = true -> increasing (filter f js) = true.
Proof.
  induction js as [|j js IH]; intros H; [reflexivity|].
  apply increasing_cons in H. destruct H as [Hall Hjs].
  simpl. destruct (f j); [|apply IH; exact Hjs].
  apply increasing_cons. split; [|apply IH; exact Hjs].
  apply Forall_forall. intros k Hk. apply filter_In in Hk.
  rewrite Forall_forall in Hall. apply Hall. tauto.
Qed.

(** The scan records one crossing for each index at which the sign-change
    test holds, in the order of the indices. *)
Lemma scan_filter (d t : nat -> float) (n a : nat) :
  scan d t n a
  = map (fun i => (t i, if rises (d i) (d (i + 1)%nat) then up else down))
        (filter (fun i => sign_change (d i) (d (i + 1)%nat)) (seq a n)).
Proof.
  revert a. induction n as [|n IH]; intros a; [reflexivity|].
  rewrite scan_S, IH. cbn [seq filter]. unfold scan_at, sign_change.
  destruct (rises (d a) (d (a + 1)%nat)) eqn:R; cbn [orb].
  - cbn [map]. rewrite R. reflexivity.
  - destruct (falls (d a) (d (a + 1)%nat)) eqn:F.
    + cbn [map]. rewrite R. reflexivity.
    + reflexivity.
Qed.

(** ** The whole function on an index array *)

Lemma find_crossings_short (fuel : nat) (idx : list nat) (s : series)
  (threshold : float) :
  (length s < 2)%nat ->
  find_crossings fuel idx s threshold = Returns ([], [], []).
Proof.
  intros Hlen. unfold find_crossings, find_melt_line_crossings.
  rewrite length_map.
  destruct (Nat.ltb_spec (length s) 2); [reflexivity|lia].
Qed.

Lemma resample_pair (sorted_time sorted_temp : list float) :
  resample sorted_time sorted_temp
  = (fst (resample sorted_time sorted_temp),
     snd (resample sorted_time sorted_temp)).
Proof. reflexivity. Qed.

(** When every index is in range the function works on the arrays
    [sorted_by idx]. *)
Lemma find_crossings_in_range (fuel : nat) (idx : list nat) (s : series)
  (threshold : float) :
  (forall i, In i idx -> (i < length s)%nat) ->
  (2 <= length s)%nat ->
  find_crossings fuel idx s threshold
  = match pairing_loop fuel (crossings_of idx s threshold) 0 [] with
    | Some ps =>
        Returns (map fst (crossings_of idx s threshold),
                 map snd (crossings_of idx s threshold), ps)
    | None => OutOfFuel
    end.
Proof.
  intros Hrange Hlen.
  unfold find_crossings, find_melt_line_crossings, crossings_of, resampled.
  rewrite length_map.
  destruct (Nat.ltb_spec (length s) 2); [lia|].
  rewrite (take_indices_in_range nan (map fst s) idx)
    by (intros i Hi; rewrite length_map; apply Hrange; exact Hi).
  rewrite (take_indices_in_range nan (map snd s) idx)
    by (intros i Hi; rewrite length_map; apply Hrange; exact Hi).
  fold (sorted_by idx (map fst s)) (sorted_by idx (map snd s)).
  rewrite (resample_pair (sorted_by idx (map fst s))
             (sorted_by idx (map snd s))) at 1.
  reflexivity.
Qed.

Lemma find_crossings_eq (fuel : nat) (idx : list nat) (s : series)
  (threshold : float) :
  argsort_ok (map fst s) idx = true ->
  (2 <= length s)%nat ->
  find_crossings fuel idx s threshold
  = match pairing_loop fuel (crossings_of idx s threshold) 0 [] with
    | Some ps =>
        Returns (map fst (crossings_of idx s threshold),
                 map snd (crossings_of idx s threshold), ps)
    | None => OutOfFuel
    end.
Proof.
  intros Hok Hlen. apply find_crossings_in_range; [|exact Hlen].
  intros i Hi. pose proof (argsort_ok_in_range _ _ Hok i Hi) as H.
  rewrite length_map in H. exact H.
Qed.

(** A call on at least two samples that returns has read every index in
    range. *)
Lemma find_crossings_returns_range (fuel : nat) (idx : list nat) (s : series)
  (threshold : float) (r : analysis) :
  (2 <= length s)%nat ->
  find_crossings fuel idx s threshold = Returns r ->
  forall i, In i idx -> (i < length s)%nat.
Proof.
  intros Hlen H. unfold find_crossings, find_melt_line_crossings in H.
  rewrite length_map in H.
  destruct (Nat.ltb_spec (length s) 2); [lia|].
  destruct (take_indices (map fst s) idx) as [st|] eqn:E; [|discriminate].
  destruct (take_indices_some nan _ _ _ E) as [_ Hr].
  intros i Hi. specialize (Hr i Hi). rewrite length_map in Hr. exact Hr.
Qed.

(** Whatever the bound on the iterations, a loop that returns has returned
    the periods of the specification's scan. *)
Lemma pairing_loop_sound (fuel : nat) :
  forall (cs : list crossing) (i : nat) (ps r : list period),
    pairing_loop fuel cs i ps = Some r ->
    r = ps ++ pair_intervals_from (length ps) (skipn i cs).
Proof.
  induction fuel as [|fuel IH]; intros cs i ps r H; simpl in H;
    destruct (Z.ltb_spec (Z.of_nat i) (Z.of_nat (length cs) - 1)) as [Hlt|Hge];
    try discriminate.
  - injection H as <-.
    rewrite pair_intervals_from_short, app_nil_r; [reflexivity|].
    rewrite length_skipn. lia.
  - rewrite (skipn_cons_nth (A:=crossing) (nan, down) cs i) by lia.
    rewrite (skipn_cons_nth (A:=crossing) (nan, down) cs (S i)) by lia.
    rewrite pair_intervals_from_step.
    replace (i + 1)%nat with (S i) in H by lia.
    destruct (is_up (snd (nth i cs (nan, down)))
              && is_down (snd (nth (S i) cs (nan, down)))).
    + apply IH in H. rewrite length_app, <- app_assoc in H. simpl in H.
      replace (i + 2)%nat with (S (S i)) in H by lia. exact H.
    + apply IH in H.
      rewrite (skipn_cons_nth (A:=crossing) (nan, down) cs (S i)) in H by lia.
      exact H.
  - injection H as <-.
    rewrite pair_intervals_from_short, app_nil_r; [reflexivity|].
    rewrite length_skipn. lia.
Qed.

(** What a returning call returns, on at least two samples. *)
Lemma find_crossings_returns_inv (fuel : nat) (idx : list nat) (s : series)
  (threshold : float) (times : list float) (types : list crossing_type)
  (periods : list period) :
  (2 <= length s)%nat ->
  find_crossings fuel idx s threshold = Returns (times, types, periods) ->
  times = map fst (crossings_of idx s threshold)
  /\ types = map snd (crossings_of idx s threshold)
  /\ periods = pair_intervals (crossings_of idx s threshold).
Proof.
  intros Hlen H.
  pose proof (find_crossings_returns_range _ _ _ _ _ Hlen H) as Hrange.
  rewrite find_crossings_in_range in H by assumption.
  destruct (pairing_loop fuel (crossings_of idx s threshold) 0 []) as [ps|] eqn:E;
    [|discriminate].
  injection H as <- <- <-.
  split; [reflexivity|]. split; [reflexivity|].
  apply pairing_loop_sound in E. exact E.
Qed.

(** What a returning call returns: nothing on fewer than two samples. *)
Lemma find_crossings_returns_pairs (fuel : nat) (idx : list nat) (s : series)
  (threshold : float) (times : list float) (types : list crossing_type)
  (periods : list period) :
  find_crossings fuel idx s threshold = Returns (times, types, periods) ->
  exists cs : list crossing,
    times = map fst cs /\ types = map snd cs /\ periods = pair_intervals cs
    /\ ((2 <= length s)%nat -> cs = crossings_of idx s threshold).
Proof.
  intros H. destruct (le_lt_dec 2 (length s)) as [Hlen|Hshort].
  - exists (crossings_of idx s threshold).
    destruct (find_crossings_returns_inv _ _ _ _ _ _ _ Hlen H) as [-> [-> ->]].
    repeat split; reflexivity.
  - rewrite find_crossings_short in H by exact Hshort.
    injection H as <- <- <-. exists [].
    repeat split; try reflexivity. lia.
Qed.

Lemma crossings_of_length (idx : list nat) (s : series) (threshold : float) :
  (length (crossings_of idx s threshold) <= 10 * length idx)%nat.
Proof.
  unfold crossings_of. rewrite detect_crossings_scan.
  pose proof (scan_length
                (fun i => sub (nth i (snd (resampled idx s)) nan) threshold)
                (crossing_time_at (fst (resampled idx s))
                   (snd (resampled idx s)) threshold)
                (length (snd (resampled idx s)) - 1) 0) as H.
  unfold resampled in *.
  destruct (length_resample (sorted_by idx (map fst s))
              (sorted_by idx (map snd s))) as [_ Hl].
  assert (Hs : length (sorted_by idx (map fst s)) = length idx)
    by (unfold sorted_by; apply length_map).
  lia.
Qed.

(** With as many iterations allowed as ten times the number of samples,
    the call returns. *)
Lemma find_crossings_returns (fuel : nat) (idx : list nat) (s : series)
  (threshold : float) :
  argsort_ok (map fst s) idx = true ->
  (10 * length s <= fuel)%nat ->
  find_crossings fuel idx s threshold
  = if (length s <? 2)%nat then Returns ([], [], [])
    else Returns (map fst (crossings_of idx s threshold),
                  map snd (crossings_of idx s threshold),
                  pair_intervals (crossings_of idx s threshold)).
Proof.
  intros Hok Hfuel.
  destruct (Nat.ltb_spec (length s) 2) as [Hlt|Hge].
  - apply find_crossings_short. exact Hlt.
  - rewrite find_crossings_eq by assumption.
    pose proof (crossings_of_length idx s threshold) as Hlen.
    pose proof (argsort_ok_length _ _ Hok) as Hidx.
    rewrite length_map in Hidx.
    rewrite pairing_loop_refines by lia. reflexivity.
Qed.

Lemma map_nth_seq_id {A : Type} (d : A) (l : list A) :
  map (fun i => nth i l d) (seq 0 (length l)) = l.
Proof.
  induction l as [|x l IH]; [reflexivity|].
  simpl. f_equal. rewrite <- seq_shift, map_map. exact IH.
Qed.

Lemma combine_sorted_by (idx : list nat) (s : series) :
  combine (sorted_by idx (map fst s)) (sorted_by idx (map snd s))
  = map (fun i => nth i s (nan, nan)) idx.
Proof.
  unfold sorted_by. induction idx as [|i idx IH]; [reflexivity|].
  cbn [map combine]. rewrite IH. f_equal.
  rewrite (surjective_pairing (nth i s (nan, nan))).
  rewrite <- (map_nth fst s (nan, nan) i), <- (map_nth snd s (nan, nan) i).
  reflexivity.
Qed.

(** The only index array that sorts the times of the single spike. *)
Lemma argsort_spike (idx : list nat) :
  argsort_ok (map fst spike) idx = true -> idx = [0; 1; 2]%nat.
Proof.
  intros H.
  destruct idx as [|i [|j [|k [|l idx]]]]; try discriminate H.
  destruct i as [|[|[|i]]], j as [|[|[|j]]], k as [|[|[|k]]];
    try reflexivity; vm_compute in H; discriminate H.
Qed.

(** ** Periods and cursors *)

Lemma pair_cursors_from_step (i : nat) (c0 c1 : crossing)
  (rest : list crossing) :
  pair_cursors_from i (c0 :: c1 :: rest)
  = if is_up (snd c0) && is_down (snd c1)
    then i :: pair_cursors_from (i + 2) rest
    else pair_cursors_from (i + 1) (c1 :: rest).
Proof.
  destruct c0 as [t0 [|]], c1 as [t1 [|]]; reflexivity.
Qed.

Lemma pair_cursors_from_short (i : nat) (cs : list crossing) :
  (length cs <= 1)%nat -> pair_cursors_from i cs = [].
Proof.
  destruct cs as [|[t0 [|]] [|c cs]]; simpl; intros H;
    try reflexivity; lia.
Qed.

Lemma pair_cursors_spec (n : nat) :
  forall (cs pre : list crossing) (k : nat),
    (length cs <= n)%nat ->
    Forall2 (uses (pre ++ cs))
            (pair_cursors_from (length pre) cs) (pair_intervals_from k cs)
    /\ spaced (pair_cursors_from (length pre) cs) = true
    /\ Forall (fun j => (length pre <= j)%nat)
              (pair_cursors_from (length pre) cs).
Proof.
  induction n as [|n IH]; intros cs pre k Hn.
  - destruct cs; [|simpl in Hn; lia]. simpl. repeat split; constructor.
  - destruct cs as [|c0 [|c1 rest]].
    + simpl. repeat split; constructor.
    + rewrite pair_cursors_from_short, pair_intervals_from_short
        by (simpl; lia).
      repeat split; constructor.
    + rewrite pair_cursors_from_step, pair_intervals_from_step.
      destruct (is_up (snd c0) && is_down (snd c1)) eqn:E.
      * destruct (IH rest (pre ++ [c0; c1]) (k + 1)%nat) as [H1 [H2 H3]];
          [simpl in Hn; lia|].
        rewrite length_app in H1, H2, H3. simpl in H1, H2, H3.
        rewrite <- app_assoc in H1. simpl in H1.
        apply andb_prop in E. destruct E as [E0 E1].
        destruct c0 as [t0 [|]]; [|discriminate].
        destruct c1 as [t1 [|]]; [discriminate|].
        split; [|split].
        -- constructor; [|exact H1]. split; simpl.
           ++ rewrite nth_error_app2 by lia.
              rewrite Nat.sub_diag. reflexivity.
           ++ rewrite nth_error_app2 by lia.
              replace (length pre + 1 - length pre)%nat with 1%nat by lia.
              reflexivity.
        -- destruct (pair_cursors_from (length pre + 2) rest) as [|j js] eqn:Ej;
             [reflexivity|].
           change (spaced (length pre :: j :: js))
             with ((length pre + 2 <=? j)%nat && spaced (j :: js)).
           rewrite H2, andb_true_r.
           apply Nat.leb_le. inversion H3; subst. lia.
        -- constructor; [lia|].
           eapply Forall_impl; [|exact H3]. intros j Hj. simpl in Hj. lia.
      * destruct (IH (c1 :: rest) (pre ++ [c0]) k) as [H1 [H2 H3]];
          [simpl in Hn; simpl; lia|].
        rewrite length_app in H1, H2, H3. simpl in H1, H2, H3.
        rewrite <- app_assoc in H1. simpl in H1.
        split; [exact H1|]. split; [exact H2|].
        eapply Forall_impl; [|exact H3]. intros j Hj. simpl in Hj. lia.
Qed.

(** In an array in NumPy's sort order, an earlier item is never after a
    later one. *)
Lemma sorted_nan_last_nth (l : list float) :
  sorted_nan_last l = true ->
  forall i j, (i <= j < length l)%nat ->
    less (nth j l nan) (nth i l nan) = false.
Proof.
  induction l as [|a l IH]; intros Hs i j Hij; simpl in Hij; [lia|].
  assert (Htl : sorted_nan_last l = true).
  { destruct l; [reflexivity|]. simpl in Hs. apply andb_prop in Hs. tauto. }
  assert (Hhd : forall k, (k < length l)%nat -> less (nth k l nan) a = false).
  { intros k Hk. destruct l as [|b l]; [simpl in Hk; lia|].
    cbn [sorted_nan_last] in Hs. apply andb_prop in Hs. destruct Hs as [Hab _].
    apply negb_true_iff in Hab.
    pose proof (IH Htl 0%nat k ltac:(simpl in *; lia)) as Hk0.
    change (nth 0 (b :: l) nan) with b in Hk0. float_lia. }
  destruct i as [|i], j as [|j]; cbn [nth].
  - float_lia.
  - apply Hhd. lia.
  - lia.
  - apply IH; [exact Htl|lia].
Qed.

Lemma Forall2_and_right {A B : Type} (R : A -> B -> Prop) (P : B -> Prop)
  (l : list A) (l' : list B) :
  Forall2 R l l' -> Forall P l' ->
  Forall2 (fun a b => R a b /\ P b) l l'.
Proof.
  induction 1 as [|a b l l' Hab _ IH]; intros HP; [constructor|].
  inversion HP; subst. constructor; [split; assumption|].
  apply IH. assumption.
Qed.

(** Without NaN in the array [diff], the types of the crossings
    alternate. *)
Lemma crossings_of_alternate (idx : list nat) (s : series)
  (threshold : float) :
  forallb (fun d => negb (is_nan d)) (resampled_diff idx s threshold) = true ->
  alternating (map snd (crossings_of idx s threshold)) = true.
Proof.
  intros Hnan.
  unfold crossings_of. rewrite detect_crossings_scan.
  destruct (Nat.eq_dec (length (snd (resampled idx s))) 0) as [Hz|Hz];
    [rewrite Hz; reflexivity|].
  apply scan_alternates. intros k Hk.
  rewrite forallb_forall in Hnan.
  apply negb_true_iff. apply Hnan.
  unfold resampled_diff. rewrite <- nth_diff.
  apply nth_In. rewrite length_map. lia.
Qed.

(** * The claims on the whole function *)

(** C3, as the code has it.  With fewer than two samples the function
    does not raise: it returns normally, with no crossing times, no
    crossing types and no periods. *)
Theorem too_few_samples_returns_empty :
  forall (fuel : nat) (sorted_indices : list nat) (s : series)
         (threshold : float),
    (length s < 2)%nat ->
    find_crossings fuel sorted_indices s threshold = Returns ([], [], []).
Proof.
  intros fuel sorted_indices s threshold Hlen.
  apply find_crossings_short. exact Hlen.
Qed.

Lemma too_few_samples_returns_empty_witness :
  (length [(0, 2000)%float] < 2)%nat
  /\ find_crossings 0 [0%nat] [(0, 2000)%float] 1000%float
     = Returns ([], [], []).
Proof.
  split; [simpl; lia|].
  apply (too_few_samples_returns_empty 0 [0%nat] [(0, 2000)%float] 1000%float).
  simpl; lia.
Defined.

(** C3, as stated, fails: on the one-sample series [(0, 2000)] the call
    raises no exception. *)
Lemma too_few_samples_no_exception :
  ~ (exists e : exception,
        find_crossings 0 [0%nat] [(0, 2000)%float] 1000%float = Raises e).
Proof.
  intros [e He]. discriminate He.
Qed.

(** C4, as stated, fails: on the samples (0, 1572), (0.9, 1000),
    (26.1, 1600) with threshold 1000 the signal comes down to the
    threshold exactly at the second sample and leaves it again; the "down"
    crossing found in the grid interval before 0.9 is rounded to
    0.9000000000000001, the "up" crossing found in the next interval to
    0.9, so the second crossing time is smaller than the first. *)
Lemma crossing_times_can_decrease :
  argsort_ok (map fst rounded_backwards) [0; 1; 2]%nat = true
  /\ find_crossings 30 [0; 1; 2]%nat rounded_backwards 1000%float
     = Returns ([0.90000000000000013; 0.90000000000000002]%float,
                [down; up], [])
  /\ ascending [0.90000000000000013; 0.90000000000000002]%float = false.
Proof.
  repeat split; vm_compute; reflexivity.
Qed.

(** C4, as the code has it.  The crossings of a call on at least two
    samples are listed in the order of the scan: there is a strictly
    increasing list of grid indices, exactly those at which the
    sign-change test holds, and the k-th crossing has the time that line
    83 computes at the k-th of them and the type of the sign change
    there.  (The times themselves are each rounded on their own, and need
    not be in order.) *)
Theorem crossings_in_scan_order :
  forall (fuel : nat) (idx : list nat) (s : series) (threshold : float)
         (times : list float) (types : list crossing_type)
         (periods : list period),
    (2 <= length s)%nat ->
    find_crossings fuel idx s threshold = Returns (times, types, periods) ->
    let time_interp := fst (resampled idx s) in
    let temp_interp := snd (resampled idx s) in
    let d := fun i => sub (nth i temp_interp nan) threshold in
    exists js : list nat,
      increasing js = true
      /\ (forall i, In i js <->
                    (i + 1 < length temp_interp)%nat
                    /\ sign_change (d i) (d (i + 1)%nat) = true)
      /\ times = map (crossing_time_at time_interp temp_interp threshold) js
      /\ types = map (fun i => if rises (d i) (d (i + 1)%nat)
                               then up else down) js.
Proof.
  intros fuel idx s threshold times types periods Hlen H
         time_interp temp_interp d.
  destruct (find_crossings_returns_inv _ _ _ _ _ _ _ Hlen H) as [-> [-> _]].
  unfold crossings_of. fold time_interp temp_interp.
  rewrite detect_crossings_scan, scan_filter. fold d.
  exists (filter (fun i => sign_change (d i) (d (i + 1)%nat))
                 (seq 0 (length temp_interp - 1))).
  split; [apply increasing_filter, increasing_seq|].
  split.
  { intros i. rewrite filter_In, in_seq. split; intros [H1 H2];
      (split; [lia|exact H2]). }
  rewrite !map_map. split; reflexivity.
Qed.

Lemma crossings_in_scan_order_witness :
  (2 <= length rounded_backwards)%nat
  /\ find_crossings 30 [0; 1; 2]%nat rounded_backwards 1000%float
     = Returns ([0.90000000000000013; 0.90000000000000002]%float,
                [down; up], [])
  /\ exists js : list nat,
       increasing js = true
       /\ [0.90000000000000013; 0.90000000000000002]%float
          = map (crossing_time_at (fst (resampled [0; 1; 2]%nat rounded_backwards))
                   (snd (resampled [0; 1; 2]%nat rounded_backwards))
                   1000%float) js.
Proof.
  assert (Hlen : (2 <= length rounded_backwards)%nat) by (simpl; lia).
  assert (Hret : find_crossings 30 [0; 1; 2]%nat rounded_backwards 1000%float
                 = Returns ([0.90000000000000013; 0.90000000000000002]%float,
                            [down; up], []))
    by (vm_compute; reflexivity).
  split; [exact Hlen|]. split; [exact Hret|].
  destruct (crossings_in_scan_order 30 [0; 1; 2]%nat rounded_backwards
              1000%float _ _ _ Hlen Hret) as [js [Hinc [_ [Ht _]]]].
  exists js. split; [exact Hinc|exact Ht].
Defined.

(** C5.  On the series [(0,0), (1,2000), (2,0)] with threshold 1000 the
    function returns exactly the crossing times 0.5 and 1.5, the types
    "up" and "down", and the single period from 0.5 to 1.5 with duration 1
    and spike number 1. *)
Theorem single_spike_round_trip :
  forall (idx : list nat) (extra : nat),
    argsort_ok (map fst spike) idx = true ->
    find_crossings (2 + extra) idx spike 1000%float
    = Returns ([0.5; 1.5]%float, [up; down],
               [mk_period 0.5 1.5 1 1]%float).
Proof.
  intros idx extra Hok.
  rewrite find_crossings_eq; [|exact Hok|simpl; lia].
  rewrite (argsort_spike idx Hok).
  assert (Hcs : crossings_of [0; 1; 2]%nat spike 1000%float
                = [(0.5, up); (1.5, down)]%float)
    by (vm_compute; reflexivity).
  rewrite Hcs. rewrite pairing_loop_refines by (simpl; lia).
  reflexivity.
Qed.

Lemma single_spike_round_trip_witness :
  argsort_ok (map fst spike) [0; 1; 2]%nat = true
  /\ find_crossings 2 [0; 1; 2]%nat spike 1000%float
     = Returns ([0.5; 1.5]%float, [up; down],
                [mk_period 0.5 1.5 1 1]%float).
Proof.
  assert (Hok : argsort_ok (map fst spike) [0; 1; 2]%nat = true)
    by (vm_compute; reflexivity).
  split; [exact Hok|].
  exact (single_spike_round_trip [0; 1; 2]%nat 0 Hok).
Defined.

(** C6, as stated, fails.  The series [tied] has two samples at time 39
    and two at time 0.  The index array [3, 2, 1, 0] meets everything
    NumPy promises for [np.argsort] with the default kind (and vectorised
    builds of NumPy return it on these times); it puts the later sample
    of each pair first, and the call then finds a "down" crossing where
    the input order of the tied samples (index array [2, 3, 0, 1]) gives
    an "up" crossing. *)
Lemma tie_order_not_kept :
  argsort_ok (map fst tied) [3; 2; 1; 0]%nat = true
  /\ keeps_tie_order (map fst tied) [3; 2; 1; 0]%nat = false
  /\ find_crossings 40 [3; 2; 1; 0]%nat tied 1000%float
     = Returns ([19.5%float], [down], [])
  /\ argsort_ok (map fst tied) [2; 3; 0; 1]%nat = true
  /\ keeps_tie_order (map fst tied) [2; 3; 0; 1]%nat = true
  /\ find_crossings 40 [2; 3; 0; 1]%nat tied 1000%float
     = Returns ([19.5%float], [up], []).
Proof.
  repeat split; vm_compute; reflexivity.
Qed.

(** C6, as the code has it.  The samples are rearranged by the index
    array of [np.argsort], whatever order it gives to samples with equal
    times: indexing succeeds, the sorted arrays hold the input samples
    rearranged, the first sorted time is a least and the last a greatest
    sample time (the ends of the resampling grid), and the call returns
    normally, also on a series that contains equal times with different
    values. *)
Theorem sorted_by_time_and_returns :
  forall (fuel : nat) (idx : list nat) (s : series) (threshold : float),
    argsort_ok (map fst s) idx = true ->
    (10 * length s <= fuel)%nat ->
    exists sorted_time sorted_temp,
      take_indices (map fst s) idx = Some sorted_time
      /\ take_indices (map snd s) idx = Some sorted_temp
      /\ Permutation s (combine sorted_time sorted_temp)
      /\ (forall t, In t (map fst s) ->
            less t (nth 0 sorted_time nan) = false
            /\ less (nth (length sorted_time - 1) sorted_time nan) t = false)
      /\ exists r, find_crossings fuel idx s threshold = Returns r.
Proof.
  intros fuel idx s threshold Hok Hfuel.
  pose proof (argsort_ok_in_range _ _ Hok) as Hrange.
  exists (sorted_by idx (map fst s)), (sorted_by idx (map snd s)).
  split; [apply take_indices_in_range; exact Hrange|].
  split.
  { apply take_indices_in_range. intros i Hi. specialize (Hrange i Hi).
    rewrite length_map in *. exact Hrange. }
  split.
  { rewrite combine_sorted_by.
    rewrite <- (map_nth_seq_id (nan, nan) s) at 1.
    apply Permutation_map.
    pose proof (argsort_ok_perm _ _ Hok) as Hp.
    rewrite length_map in Hp. exact Hp. }
  split.
  { intros t Ht.
    assert (Hin : In t (sorted_by idx (map fst s))).
    { rewrite <- (map_nth_seq_id nan (map fst s)) in Ht.
      unfold sorted_by.
      apply (Permutation_in _ (Permutation_map _ (argsort_ok_perm _ _ Hok))).
      exact Ht. }
    destruct (In_nth _ _ nan Hin) as [k [Hk <-]].
    pose proof (argsort_ok_sorted _ _ Hok) as Hs.
    split; apply (sorted_nan_last_nth _ Hs); lia. }
  rewrite find_crossings_returns by assumption.
  destruct (length s <? 2)%nat; eexists; reflexivity.
Qed.

Lemma sorted_by_time_and_returns_witness :
  argsort_ok (map fst tied) [3; 2; 1; 0]%nat = true
  /\ (10 * length tied <= 40)%nat
  /\ exists sorted_time sorted_temp,
       take_indices (map fst tied) [3; 2; 1; 0]%nat = Some sorted_time
       /\ take_indices (map snd tied) [3; 2; 1; 0]%nat = Some sorted_temp
       /\ Permutation tied (combine sorted_time sorted_temp)
       /\ (forall t, In t (map fst tied) ->
             less t (nth 0 sorted_time nan) = false
             /\ less (nth (length sorted_time - 1) sorted_time nan) t = false)
       /\ exists r, find_crossings 40 [3; 2; 1; 0]%nat tied 1000%float
                    = Returns r.
Proof.
  assert (Hok : argsort_ok (map fst tied) [3; 2; 1; 0]%nat = true)
    by (vm_compute; reflexivity).
  assert (Hfuel : (10 * length tied <= 40)%nat) by (simpl; lia).
  split; [exact Hok|]. split; [exact Hfuel|].
  exact (sorted_by_time_and_returns 40 [3; 2; 1; 0]%nat tied 1000%float
           Hok Hfuel).
Defined.

(** C8.  For every series and threshold, and every index array the sort
    may produce, the call returns: there is one result that the function
    returns for every bound on the pairing loop of at least ten times the
    number of samples. *)
Theorem find_crossings_terminates :
  forall (idx : list nat) (s : series) (threshold : float),
    argsort_ok (map fst s) idx = true ->
    exists r, forall fuel,
      (10 * length s <= fuel)%nat ->
      find_crossings fuel idx s threshold = Returns r.
Proof.
  intros idx s threshold Hok.
  exists (if (length s <? 2)%nat then ([], [], [])
          else (map fst (crossings_of idx s threshold),
                map snd (crossings_of idx s threshold),
                pair_intervals (crossings_of idx s threshold))).
  intros fuel Hfuel.
  rewrite find_crossings_returns by assumption.
  destruct (length s <? 2)%nat; reflexivity.
Qed.

Lemma find_crossings_terminates_witness :
  argsort_ok (map fst spike) [0; 1; 2]%nat = true
  /\ exists r, forall fuel,
       (10 * length spike <= fuel)%nat ->
       find_crossings fuel [0; 1; 2]%nat spike 1000%float = Returns r.
Proof.
  assert (Hok : argsort_ok (map fst spike) [0; 1; 2]%nat = true)
    by (vm_compute; reflexivity).
  split; [exact Hok|].
  exact (find_crossings_terminates [0; 1; 2]%nat spike 1000%float Hok).
Defined.

(** C9, as stated, fails: with a NaN temperature at time 20 the signal
    rises through the threshold before the NaN and again after it, the
    fall in between is hidden by the NaN, and the call returns two "up"
    crossings in a row. *)
Lemma crossing_types_can_repeat :
  argsort_ok (map fst with_nan) [0; 1; 2; 3; 4]%nat = true
  /\ find_crossings 50 [0; 1; 2; 3; 4]%nat with_nan 1000%float
     = Returns ([5; 39.5]%float, [up; up], [])
  /\ alternating [up; up] = false.
Proof.
  repeat split; vm_compute; reflexivity.
Qed.

(** C9, as the code has it.  When no item of the array [diff] of a call
    is NaN, no two neighbouring crossings the call returns have the same
    type: "up" and "down" alternate. *)
Theorem crossing_types_alternate :
  forall (fuel : nat) (idx : list nat) (s : series) (threshold : float)
         (times : list float) (types : list crossing_type)
         (periods : list period),
    find_crossings fuel idx s threshold = Returns (times, types, periods) ->
    forallb (fun d => negb (is_nan d)) (resampled_diff idx s threshold) = true ->
    alternating types = true.
Proof.
  intros fuel idx s threshold times types periods H Hnan.
  destruct (find_crossings_returns_pairs _ _ _ _ _ _ _ H)
    as [cs [_ [-> [_ Hcs]]]].
  destruct (le_lt_dec 2 (length s)) as [Hlen|Hshort].
  - rewrite (Hcs Hlen). apply crossings_of_alternate. exact Hnan.
  - rewrite find_crossings_short in H by exact Hshort.
    injection H as _ <- _. reflexivity.
Qed.

Lemma crossing_types_alternate_witness :
  find_crossings 4 [0; 1; 2; 3; 4]%nat two_spikes 1000%float
  = Returns ([0.5; 1.5; 2.5; 3.5]%float, [up; down; up; down],
             [mk_period 0.5 1.5 1 1; mk_period 2.5 3.5 1 2]%float)
  /\ forallb (fun d => negb (is_nan d))
             (resampled_diff [0; 1; 2; 3; 4]%nat two_spikes 1000%float) = true
  /\ alternating [up; down; up; down] = true.
Proof.
  assert (Hret : find_crossings 4 [0; 1; 2; 3; 4]%nat two_spikes 1000%float
                 = Returns ([0.5; 1.5; 2.5; 3.5]%float, [up; down; up; down],
                            [mk_period 0.5 1.5 1 1;
                             mk_period 2.5 3.5 1 2]%float))
    by (vm_compute; reflexivity).
  assert (Hnan : forallb (fun d => negb (is_nan d))
                   (resampled_diff [0; 1; 2; 3; 4]%nat two_spikes 1000%float)
                 = true)
    by (vm_compute; reflexivity).
  split; [exact Hret|]. split; [exact Hnan|].
  exact (crossing_types_alternate 4 [0; 1; 2; 3; 4]%nat two_spikes 1000%float
           _ _ _ Hret Hnan).
Defined.

(** C10, as stated, fails: the series [touching] comes down to the
    threshold exactly at the sample at time 0 and rises again; the "down"
    crossing that ends the first period is rounded to 1.39e-17, the "up"
    crossing that starts the second period is 0, so the first period ends
    after the second has started. *)
Lemma periods_can_overlap :
  argsort_ok (map fst touching) [0; 1; 2; 3; 4]%nat = true
  /\ find_crossings 50 [0; 1; 2; 3; 4]%nat touching 1571.15%float
     = Returns ([-1.0018031249999999; 1.3877787807814457e-17; 0;
                 1.9342593749999999]%float,
                [up; down; up; down],
                [mk_period (-1.0018031249999999) 1.3877787807814457e-17
                           1.0018031249999999 1;
                 mk_period 0 1.9342593749999999 1.9342593749999999 2]%float)
  /\ chained [mk_period (-1.0018031249999999) 1.3877787807814457e-17
                        1.0018031249999999 1;
              mk_period 0 1.9342593749999999 1.9342593749999999 2]%float
     = false.
Proof.
  repeat split; vm_compute; reflexivity.
Qed.

(** C10, as the code has it.  The periods a call returns are made of
    disjoint pairs of neighbouring crossings, in the order of the crossing
    list: there are cursor positions, each at least two after the one
    before, such that the k-th period starts at the "up" crossing at the
    k-th position and ends at the "down" crossing right after it.  (The
    crossing list is in scan order; its times are rounded one by one, so a
    period may end a rounding error after the next one starts.) *)
Theorem periods_disjoint_and_ordered :
  forall (fuel : nat) (idx : list nat) (s : series) (threshold : float)
         (times : list float) (types : list crossing_type)
         (periods : list period),
    find_crossings fuel idx s threshold = Returns (times, types, periods) ->
    exists cursors,
      spaced cursors = true
      /\ Forall2 (fun j p =>
                    nth_error times j = Some (start_time p)
                    /\ nth_error types j = Some up
                    /\ nth_error times (j + 1) = Some (end_time p)
                    /\ nth_error types (j + 1) = Some down
                    /\ duration p = sub (end_time p) (start_time p))
                 cursors periods.
Proof.
  intros fuel idx s threshold times types periods H.
  destruct (find_crossings_returns_pairs _ _ _ _ _ _ _ H)
    as [cs [-> [-> [-> _]]]].
  destruct (pair_cursors_spec (length cs) cs [] 0 (Nat.le_refl _))
    as [Huses [Hspaced _]].
  exists (pair_cursors_from 0 cs). split; [exact Hspaced|].
  assert (Hdur : Forall (fun p => duration p = sub (end_time p) (start_time p))
                        (pair_intervals cs)).
  { unfold pair_intervals. generalize 0%nat.
    assert (Hn : forall n (l : list crossing) k, (length l <= n)%nat ->
              Forall (fun p => duration p = sub (end_time p) (start_time p))
                     (pair_intervals_from k l)).
    { induction n as [|n IH]; intros l k Hl.
      - destruct l; [constructor|simpl in Hl; lia].
      - destruct l as [|c0 [|c1 rest]]; try constructor.
        + rewrite pair_intervals_from_short by (simpl; lia). constructor.
        + rewrite pair_intervals_from_step.
          destruct (is_up (snd c0) && is_down (snd c1)).
          * constructor; [reflexivity|]. apply IH. simpl in Hl. lia.
          * apply IH. simpl in Hl |- *. lia. }
    intros k. apply (Hn (length cs)). lia. }
  simpl in Huses.
  eapply Forall2_impl;
    [|exact (Forall2_and_right _ _ _ _ Huses Hdur)].
  intros j p [[Hs He] Hd]. simpl in Hs, He, Hd.
  repeat split.
  - apply (map_nth_error fst) in Hs. exact Hs.
  - apply (map_nth_error snd) in Hs. exact Hs.
  - apply (map_nth_error fst) in He. exact He.
  - apply (map_nth_error snd) in He. exact He.
  - exact Hd.
Qed.

Lemma periods_disjoint_and_ordered_witness :
  find_crossings 50 [0; 1; 2; 3; 4]%nat touching 1571.15%float
  = Returns ([-1.0018031249999999; 1.3877787807814457e-17; 0;
              1.9342593749999999]%float,
             [up; down; up; down],
             [mk_period (-1.0018031249999999) 1.3877787807814457e-17
                        1.0018031249999999 1;
              mk_period 0 1.9342593749999999 1.9342593749999999 2]%float)
  /\ exists cursors,
       spaced cursors = true
       /\ length cursors = 2%nat.
Proof.
  assert (Hret : find_crossings 50 [0; 1; 2; 3; 4]%nat touching 1571.15%float
     = Returns ([-1.0018031249999999; 1.3877787807814457e-17; 0;
                 1.9342593749999999]%float,
                [up; down; up; down],
                [mk_period (-1.0018031249999999) 1.3877787807814457e-17
                           1.0018031249999999 1;
                 mk_period 0 1.9342593749999999 1.9342593749999999 2]%float))
    by (vm_compute; reflexivity).
  split; [exact Hret|].
  destruct (periods_disjoint_and_ordered 50 [0; 1; 2; 3; 4]%nat touching
              1571.15%float _ _ _ Hret) as [cursors [Hsp Hall]].
  exists cursors. split; [exact Hsp|].
  apply Forall2_length in Hall. exact Hall.
Defined.

(** * Further properties of the function *)

(** The periods of the scan carry their own duration, are numbered
    consecutively, and use two crossings each. *)
Lemma pair_intervals_shape (n : nat) :
  forall (cs : list crossing) (k : nat),
    (length cs <= n)%nat ->
    Forall (fun p => duration p = sub (end_time p) (start_time p))
           (pair_intervals_from k cs)
    /\ map spike_number (pair_intervals_from k cs)
       = seq (k + 1) (length (pair_intervals_from k cs))
    /\ (2 * length (pair_intervals_from k cs) <= length cs)%nat.
Proof.
  induction n as [|n IH]; intros cs k Hn.
  - destruct cs; [|simpl in Hn; lia]. simpl.
    split; [constructor|]. split; [reflexivity|lia].
  - destruct cs as [|c0 [|c1 rest]].
    + simpl. split; [constructor|]. split; [reflexivity|lia].
    + rewrite pair_intervals_from_short by (simpl; lia). simpl.
      split; [constructor|]. split; [reflexivity|lia].
    + rewrite pair_intervals_from_step.
      destruct (is_up (snd c0) && is_down (snd c1)).
      * destruct (IH rest (k + 1)%nat) as [Hd [Hn' Hl]]; [simpl in Hn; lia|].
        split; [constructor; [reflexivity|exact Hd]|].
        split.
        -- cbn [map length seq spike_number]. f_equal.
           rewrite Hn'. f_equal. lia.
        -- cbn [length]. simpl in Hl. lia.
      * destruct (IH (c1 :: rest) k) as [Hd [Hn' Hl]];
          [simpl in Hn; simpl; lia|].
        split; [exact Hd|]. split; [exact Hn'|].
        simpl in Hl. simpl. lia.
Qed.

(** X2.  In everything a call returns there is one type per crossing time,
    the periods are numbered 1, 2, 3, ... in the order they are listed, and
    there are at most half as many periods as crossings. *)
Theorem periods_are_numbered :
  forall (fuel : nat) (idx : list nat) (s : series) (threshold : float)
         (times : list float) (types : list crossing_type)
         (periods : list period),
    find_crossings fuel idx s threshold = Returns (times, types, periods) ->
    length times = length types
    /\ map spike_number periods = seq 1 (length periods)
    /\ (2 * length periods <= length times)%nat.
Proof.
  intros fuel idx s threshold times types periods H.
  destruct (find_crossings_returns_pairs _ _ _ _ _ _ _ H)
    as [cs [-> [-> [-> _]]]].
  destruct (pair_intervals_shape (length cs) cs 0 (Nat.le_refl _))
    as [_ [Hnum Hlen]].
  rewrite !length_map. split; [reflexivity|]. split; assumption.
Qed.

Lemma periods_are_numbered_witness :
  find_crossings 4 [0; 1; 2; 3; 4]%nat two_spikes 1000%float
  = Returns ([0.5; 1.5; 2.5; 3.5]%float, [up; down; up; down],
             [mk_period 0.5 1.5 1 1; mk_period 2.5 3.5 1 2]%float)
  /\ map spike_number [mk_period 0.5 1.5 1 1; mk_period 2.5 3.5 1 2]%float
     = seq 1 2.
Proof.
  assert (Hret : find_crossings 4 [0; 1; 2; 3; 4]%nat two_spikes 1000%float
     = Returns ([0.5; 1.5; 2.5; 3.5]%float, [up; down; up; down],
                [mk_period 0.5 1.5 1 1; mk_period 2.5 3.5 1 2]%float))
    by (vm_compute; reflexivity).
  split; [exact Hret|].
  exact (proj1 (proj2 (periods_are_numbered 4 [0; 1; 2; 3; 4]%nat
                         two_spikes 1000%float _ _ _ Hret))).
Defined.

(** ** How many periods *)

Lemma pair_count_alternating (n : nat) :
  forall (cs : list crossing) (k : nat),
    (length cs <= n)%nat ->
    alternating (map snd cs) = true ->
    length (pair_intervals_from k cs)
    = ((length cs - match map snd cs with down :: _ => 1 | _ => 0 end) / 2)%nat.
Proof.
  induction n as [|n IH]; intros cs k Hn Halt.
  - destruct cs; [reflexivity|simpl in Hn; lia].
  - destruct cs as [|[t0 ty0] [|[t1 ty1] rest]].
    + reflexivity.
    + rewrite pair_intervals_from_short by (simpl; lia).
      destruct ty0; reflexivity.
    + rewrite pair_intervals_from_step.
      cbn [map snd alternating] in Halt.
      apply andb_prop in Halt. destruct Halt as [Hne Halt].
      destruct ty0, ty1; try discriminate Hne; cbn [snd is_up is_down andb].
      * cbn [length]. rewrite IH; [|simpl in Hn; lia|].
        -- destruct rest as [|[t2 ty2] rest']; [reflexivity|].
           cbn [map snd alternating] in Halt.
           apply andb_prop in Halt. destruct Halt as [Hne2 _].
           destruct ty2; [|discriminate Hne2].
           cbn [map snd length].
           replace (S (S (S (length rest'))) - 0)%nat
             with (S (length rest') - 0 + 1 * 2)%nat by lia.
           rewrite Nat.div_add by lia. lia.
        -- destruct rest as [|[t2 ty2] rest']; [reflexivity|].
           cbn [map snd alternating] in Halt |- *.
           apply andb_prop in Halt. tauto.
      * rewrite IH; [|simpl in Hn; simpl; lia|exact Halt].
        cbn [map snd length]. f_equal; lia.
Qed.

(** The crossings of a call whose array [diff] holds no NaN: they
    alternate. *)
Lemma returned_crossings_alternate (fuel : nat) (idx : list nat) (s : series)
  (threshold : float) (times : list float) (types : list crossing_type)
  (periods : list period) :
  find_crossings fuel idx s threshold = Returns (times, types, periods) ->
  forallb (fun d => negb (is_nan d)) (resampled_diff idx s threshold) = true ->
  exists cs : list crossing,
    times = map fst cs /\ types = map snd cs /\ periods = pair_intervals cs
    /\ alternating (map snd cs) = true.
Proof.
  intros H Hnan.
  destruct (le_lt_dec 2 (length s)) as [Hlen|Hshort].
  - destruct (find_crossings_returns_inv _ _ _ _ _ _ _ Hlen H) as [-> [-> ->]].
    exists (crossings_of idx s threshold).
    repeat split. apply crossings_of_alternate. exact Hnan.
  - rewrite find_crossings_short in H by exact Hshort.
    injection H as <- <- <-. exists []. repeat split.
Qed.

(** X3.  When no item of the array [diff] is NaN, the pairing loses no
    crossing of a call except a "down" at the very beginning and an "up" at
    the very end: the number of periods is half the number of crossings
    (rounded down) when the first crossing is "up", and half the number of
    the crossings after the first one when the first crossing is "down". *)
Theorem every_up_down_pair_is_a_period :
  forall (fuel : nat) (idx : list nat) (s : series) (threshold : float)
         (times : list float) (types : list crossing_type)
         (periods : list period),
    find_crossings fuel idx s threshold = Returns (times, types, periods) ->
    forallb (fun d => negb (is_nan d)) (resampled_diff idx s threshold) = true ->
    length periods
    = ((length types - match types with down :: _ => 1 | _ => 0 end) / 2)%nat.
Proof.
  intros fuel idx s threshold times types periods H Hnan.
  destruct (returned_crossings_alternate _ _ _ _ _ _ _ H Hnan)
    as [cs [_ [-> [-> Halt]]]].
  unfold pair_intervals.
  rewrite (pair_count_alternating _ _ 0 (Nat.le_refl _) Halt).
  rewrite length_map. reflexivity.
Qed.

Lemma every_up_down_pair_is_a_period_witness :
  find_crossings 3 [0; 1; 2; 3]%nat dip 1000%float
  = Returns ([0.5; 1.5; 2.5]%float, [down; up; down],
             [mk_period 1.5 2.5 1 1]%float)
  /\ forallb (fun d => negb (is_nan d))
             (resampled_diff [0; 1; 2; 3]%nat dip 1000%float) = true
  /\ length [mk_period 1.5 2.5 1 1]%float
     = ((length [down; up; down] - 1) / 2)%nat.
Proof.
  assert (Hret : find_crossings 3 [0; 1; 2; 3]%nat dip 1000%float
     = Returns ([0.5; 1.5; 2.5]%float, [down; up; down],
                [mk_period 1.5 2.5 1 1]%float))
    by (vm_compute; reflexivity).
  assert (Hnan : forallb (fun d => negb (is_nan d))
                   (resampled_diff [0; 1; 2; 3]%nat dip 1000%float) = true)
    by (vm_compute; reflexivity).
  split; [exact Hret|]. split; [exact Hnan|].
  exact (every_up_down_pair_is_a_period 3 [0; 1; 2; 3]%nat dip 1000%float
           _ _ _ Hret Hnan).
Defined.

(** ** Arrays of different lengths *)

(** X6.  Called with fewer temperatures than times (and at least two
    times), the function raises IndexError when it indexes the
    temperatures with the sorted indices. *)
Theorem too_few_temperatures_raise :
  forall (fuel : nat) (idx : list nat) (time_data temp_data : list float)
         (melt_temp : float),
    argsort_ok time_data idx = true ->
    (2 <= length time_data)%nat ->
    (length temp_data < length time_data)%nat ->
    find_melt_line_crossings fuel idx time_data temp_data melt_temp
    = Raises IndexError.
Proof.
  intros fuel idx time_data temp_data melt_temp Hok Hlen Hshort.
  unfold find_melt_line_crossings.
  destruct (Nat.ltb_spec (length time_data) 2); [lia|].
  rewrite (take_indices_in_range nan time_data idx)
    by (apply argsort_ok_in_range; exact Hok).
  rewrite (take_indices_out_of_range temp_data idx (length time_data - 1));
    [reflexivity| |lia].
  apply (Permutation_in _ (argsort_ok_perm _ _ Hok)).
  apply in_seq. lia.
Qed.

Lemma too_few_temperatures_raise_witness :
  argsort_ok [0; 1; 2]%float [0; 1; 2]%nat = true
  /\ (2 <= length [0; 1; 2]%float)%nat
  /\ (length [0; 2000]%float < length [0; 1; 2]%float)%nat
  /\ find_melt_line_crossings 30 [0; 1; 2]%nat [0; 1; 2]%float
       [0; 2000]%float 1000%float
     = Raises IndexError.
Proof.
  assert (Hok : argsort_ok [0; 1; 2]%float [0; 1; 2]%nat = true)
    by (vm_compute; reflexivity).
  assert (H2 : (2 <= length [0; 1; 2]%float)%nat) by (simpl; lia).
  assert (H3 : (length [0; 2000]%float < length [0; 1; 2]%float)%nat)
    by (simpl; lia).
  split; [exact Hok|]. split; [exact H2|]. split; [exact H3|].
  exact (too_few_temperatures_raise 30 [0; 1; 2]%nat [0; 1; 2]%float
           [0; 2000]%float 1000%float Hok H2 H3).
Defined.

(** X7.  Temperatures beyond the number of times are never read: the
    function returns what it returns on the temperatures cut to the number
    of times. *)
Theorem surplus_temperatures_are_ignored :
  forall (fuel : nat) (idx : list nat) (time_data temp_data : list float)
         (melt_temp : float),
    argsort_ok time_data idx = true ->
    find_melt_line_crossings fuel idx time_data temp_data melt_temp
    = find_melt_line_crossings fuel idx time_data
        (firstn (length time_data) temp_data) melt_temp.
Proof.
  intros fuel idx time_data temp_data melt_temp Hok.
  unfold find_melt_line_crossings.
  rewrite (take_indices_firstn temp_data idx (length time_data))
    by (apply argsort_ok_in_range; exact Hok).
  reflexivity.
Qed.

Lemma surplus_temperatures_are_ignored_witness :
  argsort_ok [0; 1; 2]%float [0; 1; 2]%nat = true
  /\ find_melt_line_crossings 2 [0; 1; 2]%nat [0; 1; 2]%float
       [0; 2000; 0; 7; 9]%float 1000%float
     = find_melt_line_crossings 2 [0; 1; 2]%nat [0; 1; 2]%float
         [0; 2000; 0]%float 1000%float.
Proof.
  assert (Hok : argsort_ok [0; 1; 2]%float [0; 1; 2]%nat = true)
    by (vm_compute; reflexivity).
  split; [exact Hok|].
  exact (surplus_temperatures_are_ignored 2 [0; 1; 2]%nat [0; 1; 2]%float
           [0; 2000; 0; 7; 9]%float 1000%float Hok).
Defined.

(** ** The order of the input samples *)

Lemma ties_rank (a b : float) : ties a b = (ord a =? ord b)%Z.
Proof.
  unfold ties. rewrite !less_ord. lia.
Qed.

Lemma distinct_times_separated (s : series) :
  distinct_times s = true -> separated s.
Proof.
  induction s as [|a s IH]; intros H.
  - split; [constructor|]. intros p q [].
  - simpl in H. apply andb_prop in H. destruct H as [Ha Hs].
    destruct (IH Hs) as [Hnd Hinj].
    rewrite forallb_forall in Ha.
    assert (Hfresh : forall q, In q s -> time_rank a <> time_rank q).
    { intros q Hq. specialize (Ha q Hq). apply negb_true_iff in Ha.
      rewrite ties_rank in Ha. unfold time_rank. lia. }
    split.
    + constructor; [|exact Hnd].
      intros Hin. apply (Hfresh a Hin). reflexivity.
    + intros p q [<-|Hp] [<-|Hq] Heq.
      * reflexivity.
      * exfalso. apply (Hfresh q Hq). exact Heq.
      * exfalso. apply (Hfresh p Hp). symmetry. exact Heq.
      * apply Hinj; assumption.
Qed.

Lemma separated_perm (l l' : series) :
  Permutation l l' -> separated l -> separated l'.
Proof.
  intros Hp [Hnd Hinj]. split.
  - apply (Permutation_NoDup Hp Hnd).
  - intros p q Hpin Hqin. apply Hinj;
      apply (Permutation_in _ (Permutation_sym Hp)); assumption.
Qed.

Lemma separated_tail (a : float * float) (l : series) :
  separated (a :: l) -> separated l /\ ~ In a l.
Proof.
  intros [Hnd Hinj]. inversion Hnd as [|? ? Hnotin Hnd']; subst.
  split; [split; [exact Hnd'|]|exact Hnotin].
  intros p q Hp Hq. apply Hinj; right; assumption.
Qed.

Lemma sorted_samples_strict (l : series) :
  separated l -> sorted_nan_last (map fst l) = true ->
  StronglySorted earlier l.
Proof.
  induction l as [|a l IH]; intros Hsep Hs; [constructor|].
  destruct (separated_tail _ _ Hsep) as [Hsep' Hnotin].
  assert (Htl : sorted_nan_last (map fst l) = true).
  { destruct l; [reflexivity|]. simpl in Hs. apply andb_prop in Hs. tauto. }
  constructor; [apply IH; assumption|].
  apply Forall_forall. intros q Hq.
  destruct (In_nth _ _ (nan, nan) Hq) as [j [Hj Hnth]].
  pose proof (sorted_nan_last_nth (map fst (a :: l)) Hs 0 (S j)) as Hle.
  simpl in Hle. rewrite length_map in Hle. specialize (Hle ltac:(lia)).
  rewrite (nth_map_in_range fst l (nan, nan) nan j Hj), Hnth in Hle.
  unfold earlier, time_rank.
  rewrite less_ord in Hle.
  destruct (Z.eq_dec (ord (fst a)) (ord (fst q))) as [E|E]; [|lia].
  exfalso. apply Hnotin.
  destruct Hsep as [_ Hinj].
  rewrite (Hinj a q); [exact Hq|left; reflexivity|right; exact Hq|exact E].
Qed.

Lemma strictly_sorted_unique (l : series) :
  forall l' : series,
    StronglySorted earlier l -> StronglySorted earlier l' ->
    Permutation l l' -> l = l'.
Proof.
  induction l as [|p l IH]; intros l' Hs Hs' Hp.
  - apply Permutation_nil in Hp. subst. reflexivity.
  - destruct l' as [|p' l'].
    + apply Permutation_sym, Permutation_nil in Hp. discriminate Hp.
    + inversion Hs as [|? ? Hs1 Hall]; subst.
      inversion Hs' as [|? ? Hs1' Hall']; subst.
      assert (Heq : p = p').
      { assert (Hin : In p (p' :: l'))
          by (apply (Permutation_in _ Hp); left; reflexivity).
        assert (Hin' : In p' (p :: l))
          by (apply (Permutation_in _ (Permutation_sym Hp)); left; reflexivity).
        destruct Hin as [E|Hin]; [symmetry; exact E|].
        destruct Hin' as [E|Hin']; [exact E|].
        rewrite Forall_forall in Hall, Hall'.
        pose proof (Hall _ Hin') as H1. pose proof (Hall' _ Hin) as H2.
        unfold earlier in H1, H2. lia. }
      subst p'. f_equal. apply IH; [assumption..|].
      apply (Permutation_cons_inv Hp).
Qed.

Lemma sorted_by_fst (idx : list nat) (s : series) :
  sorted_by idx (map fst s) = map fst (map (fun i => nth i s (nan, nan)) idx).
Proof.
  unfold sorted_by. rewrite map_map. apply map_ext. intros i.
  exact (map_nth fst s (nan, nan) i).
Qed.

Lemma sorted_by_snd (idx : list nat) (s : series) :
  sorted_by idx (map snd s) = map snd (map (fun i => nth i s (nan, nan)) idx).
Proof.
  unfold sorted_by. rewrite map_map. apply map_ext. intros i.
  exact (map_nth snd s (nan, nan) i).
Qed.

Lemma sorted_samples_perm (idx : list nat) (s : series) :
  argsort_ok (map fst s) idx = true ->
  Permutation s (map (fun i => nth i s (nan, nan)) idx).
Proof.
  intros Hok. rewrite <- (map_nth_seq_id (nan, nan) s) at 1.
  apply Permutation_map.
  pose proof (argsort_ok_perm _ _ Hok) as Hp.
  rewrite length_map in Hp. exact Hp.
Qed.

(** With pairwise different times, the sorted samples do not depend on
    the order of the input. *)
Lemma sorted_samples_unique (idx idx' : list nat) (s s' : series) :
  distinct_times s = true -> Permutation s s' ->
  argsort_ok (map fst s) idx = true ->
  argsort_ok (map fst s') idx' = true ->
  map (fun i => nth i s (nan, nan)) idx
  = map (fun i => nth i s' (nan, nan)) idx'.
Proof.
  intros Hd Hp Hok Hok'.
  pose proof (distinct_times_separated s Hd) as Hsep.
  pose proof (sorted_samples_perm idx s Hok) as P1.
  pose proof (sorted_samples_perm idx' s' Hok') as P2.
  apply strictly_sorted_unique.
  - apply sorted_samples_strict.
    + apply (separated_perm _ _ P1 Hsep).
    + rewrite <- sorted_by_fst. apply argsort_ok_sorted. exact Hok.
  - apply sorted_samples_strict.
    + apply (separated_perm s); [|exact Hsep].
      apply (Permutation_trans Hp P2).
    + rewrite <- sorted_by_fst. apply argsort_ok_sorted. exact Hok'.
  - apply (Permutation_trans (Permutation_sym P1)).
    apply (Permutation_trans Hp P2).
Qed.

(** X8.  When no two samples tie in time, the result does not depend on
    the order in which the samples are given: every rearrangement of the
    series gives the same outcome. *)
Theorem sample_order_is_irrelevant :
  forall (fuel : nat) (idx idx' : list nat) (s s' : series)
         (threshold : float),
    distinct_times s = true ->
    Permutation s s' ->
    argsort_ok (map fst s) idx = true ->
    argsort_ok (map fst s') idx' = true ->
    find_crossings fuel idx s threshold = find_crossings fuel idx' s' threshold.
Proof.
  intros fuel idx idx' s s' threshold Hd Hp Hok Hok'.
  pose proof (Permutation_length Hp) as Hlen.
  destruct (le_lt_dec 2 (length s)) as [H2|Hshort].
  - rewrite (find_crossings_eq fuel idx s) by assumption.
    rewrite (find_crossings_eq fuel idx' s') by (assumption || lia).
    pose proof (sorted_samples_unique idx idx' s s' Hd Hp Hok Hok') as Hu.
    assert (Hcs : crossings_of idx s threshold = crossings_of idx' s' threshold).
    { unfold crossings_of, resampled.
      rewrite !sorted_by_fst, !sorted_by_snd, Hu. reflexivity. }
    rewrite Hcs. reflexivity.
  - rewrite !find_crossings_short by lia. reflexivity.
Qed.

Lemma sample_order_is_irrelevant_witness :
  distinct_times spike = true
  /\ Permutation spike (rev spike)
  /\ argsort_ok (map fst spike) [0; 1; 2]%nat = true
  /\ argsort_ok (map fst (rev spike)) [2; 1; 0]%nat = true
  /\ find_crossings 2 [0; 1; 2]%nat spike 1000%float
     = find_crossings 2 [2; 1; 0]%nat (rev spike) 1000%float.
Proof.
  assert (Hd : distinct_times spike = true) by (vm_compute; reflexivity).
  assert (Hp : Permutation spike (rev spike)) by (apply Permutation_rev).
  assert (Hok : argsort_ok (map fst spike) [0; 1; 2]%nat = true)
    by (vm_compute; reflexivity).
  assert (Hok' : argsort_ok (map fst (rev spike)) [2; 1; 0]%nat = true)
    by (vm_compute; reflexivity).
  split; [exact Hd|]. split; [exact Hp|]. split; [exact Hok|].
  split; [exact Hok'|].
  exact (sample_order_is_irrelevant 2 [0; 1; 2]%nat [2; 1; 0]%nat
           spike (rev spike) 1000%float Hd Hp Hok Hok').
Defined.

(** ** The summary of the caller *)

Lemma combine_fst_snd {A B : Type} (l : list (A * B)) :
  combine (map fst l) (map snd l) = l.
Proof.
  induction l as [|[x y] l IH]; [reflexivity|].
  simpl. rewrite IH. reflexivity.
Qed.

(** In an alternating list the numbers of "up" and "down" differ by at
    most one, and the type of the first crossing is the more frequent
    one. *)
Lemma alternating_counts (cs : list crossing) :
  alternating (map snd cs) = true ->
  let u := length (filter (fun c => is_up (snd c)) cs) in
  let d := length (filter (fun c => is_down (snd c)) cs) in
  match map snd cs with
  | [] => u = 0%nat /\ d = 0%nat
  | up :: _ => (d <= u /\ u <= d + 1 /\ 1 <= u)%nat
  | down :: _ => (u <= d /\ d <= u + 1 /\ 1 <= d)%nat
  end.
Proof.
  induction cs as [|[t0 ty0] cs IH]; intros Halt; [split; reflexivity|].
  assert (Htl : alternating (map snd cs) = true).
  { destruct cs; [reflexivity|].
    cbn [map snd alternating] in Halt. apply andb_prop in Halt. tauto. }
  specialize (IH Htl). cbv zeta in IH.
  destruct cs as [|[t1 ty1] cs'].
  - destruct ty0; simpl; lia.
  - cbn [map snd alternating] in Halt. apply andb_prop in Halt.
    destruct Halt as [Hne _].
    cbn [map snd] in IH.
    destruct ty0, ty1; try discriminate Hne;
      cbn [map snd filter is_up is_down length] in IH |- *; lia.
Qed.

(** X9.  The markers of the plot, when no item of the array [diff] is
    NaN: every crossing of a call is either a melt start ("up") or a melt
    end ("down"), the numbers of the two differ by at most one, and the
    number of periods is the number of melt ends, less one when the first
    crossing is a melt end. *)
Theorem melt_starts_and_ends_balance :
  forall (fuel : nat) (idx : list nat) (s : series) (threshold : float)
         (times : list float) (types : list crossing_type)
         (periods : list period),
    find_crossings fuel idx s threshold = Returns (times, types, periods) ->
    forallb (fun d => negb (is_nan d)) (resampled_diff idx s threshold) = true ->
    let ups := length (up_times times types) in
    let downs := length (down_times times types) in
    (ups + downs = length times
     /\ ups <= downs + 1 /\ downs <= ups + 1
     /\ length periods
        = downs - match types with down :: _ => 1 | _ => 0 end)%nat.
Proof.
  intros fuel idx s threshold times types periods H Hnan.
  destruct (returned_crossings_alternate _ _ _ _ _ _ _ H Hnan)
    as [cs [-> [-> [-> Halt]]]].
  unfold up_times, down_times. cbv zeta.
  rewrite combine_fst_snd, !length_map.
  pose proof (alternating_counts cs Halt) as Hc. cbv zeta in Hc.
  pose proof (pair_count_alternating _ cs 0 (Nat.le_refl _) Halt) as Hn.
  unfold pair_intervals. rewrite Hn. clear Hn.
  assert (Htot : (length (filter (fun c => is_up (snd c)) cs)
                  + length (filter (fun c => is_down (snd c)) cs)
                  = length cs)%nat).
  { clear. induction cs as [|[t0 [|]] cs IH]; simpl; lia. }
  set (u := length (filter (fun c => is_up (snd c)) cs)) in *.
  set (d := length (filter (fun c => is_down (snd c)) cs)) in *.
  unfold crossing in *.
  rewrite <- Htot. clearbody u d. clear Htot.
  destruct (map snd cs) as [|[|] tys]; repeat split; try lia.
  - destruct Hc as [-> ->]. reflexivity.
  - assert (E : (u = d \/ u = d + 1)%nat) by lia.
    destruct E as [->| ->].
    + replace (d + d - 0)%nat with (0 + d * 2)%nat by lia.
      rewrite Nat.div_add by lia. simpl. lia.
    + replace (d + 1 + d - 0)%nat with (1 + d * 2)%nat by lia.
      rewrite Nat.div_add by lia. simpl. lia.
  - assert (E : (d = u \/ d = u + 1)%nat) by lia.
    destruct E as [E|E]; rewrite E.
    + destruct u as [|u]; [lia|].
      replace (S u + S u - 1)%nat with (1 + u * 2)%nat by lia.
      rewrite Nat.div_add by lia. simpl. lia.
    + replace (u + (u + 1) - 1)%nat with (0 + u * 2)%nat by lia.
      rewrite Nat.div_add by lia. simpl. lia.
Qed.

Lemma melt_starts_and_ends_balance_witness :
  find_crossings 3 [0; 1; 2; 3]%nat dip 1000%float
  = Returns ([0.5; 1.5; 2.5]%float, [down; up; down],
             [mk_period 1.5 2.5 1 1]%float)
  /\ forallb (fun d => negb (is_nan d))
             (resampled_diff [0; 1; 2; 3]%nat dip 1000%float) = true
  /\ up_times [0.5; 1.5; 2.5]%float [down; up; down] = [1.5%float]
  /\ (length [mk_period 1.5 2.5 1 1]%float
      = length (down_times [0.5; 1.5; 2.5]%float [down; up; down]) - 1)%nat.
Proof.
  assert (Hret : find_crossings 3 [0; 1; 2; 3]%nat dip 1000%float
     = Returns ([0.5; 1.5; 2.5]%float, [down; up; down],
                [mk_period 1.5 2.5 1 1]%float))
    by (vm_compute; reflexivity).
  assert (Hnan : forallb (fun d => negb (is_nan d))
                   (resampled_diff [0; 1; 2; 3]%nat dip 1000%float) = true)
    by (vm_compute; reflexivity).
  split; [exact Hret|]. split; [exact Hnan|]. split; [reflexivity|].
  exact (proj2 (proj2 (proj2
           (melt_starts_and_ends_balance 3 [0; 1; 2; 3]%nat dip 1000%float
              _ _ _ Hret Hnan)))).
Defined.

(** [max] returns the first of the items with the greatest key, when no
    key is NaN. *)
Lemma max_by_spec {A : Type} (key : A -> float) (l : list A) :
  forall best,
    Forall (fun x => is_nan (key x) = false) (best :: l) ->
    exists before after,
      best :: l = before ++ max_by key best l :: after
      /\ Forall (fun x => gt (key (max_by key best l)) (key x) = true) before
      /\ Forall (fun x => le (key x) (key (max_by key best l)) = true) after
      /\ le (key best) (key (max_by key best l)) = true.
Proof.
  induction l as [|x l IH]; intros best Hfin.
  - exists [], []. simpl. repeat split; try constructor.
    inversion Hfin; subst. float_lia.
  - inversion Hfin as [|? ? Hb Hrest]; subst.
    inversion Hrest as [|? ? Hx Hl]; subst.
    cbn [max_by]. destruct (gt (key x) (key best)) eqn:G.
    + destruct (IH x) as [before [after [Heq [Hbefore [Hafter Hle]]]]].
      { constructor; assumption. }
      exists (best :: before), after.
      split; [simpl; rewrite Heq; reflexivity|].
      split; [|split; [exact Hafter|]].
      * constructor; [|exact Hbefore]. float_lia.
      * float_lia.
    + destruct (IH best) as [before [after [Heq [Hbefore [Hafter Hle]]]]].
      { constructor; assumption. }
      assert (Hxb : le (key x) (key best) = true) by float_lia.
      destruct before as [|b before].
      * simpl in Heq. injection Heq as Hm Hl'.
        exists [], (x :: after).
        split; [simpl; rewrite <- Hm; do 2 f_equal; exact Hl'|].
        split; [constructor|]. split; [|exact Hle].
        constructor; [|exact Hafter]. float_lia.
      * simpl in Heq. injection Heq as Hb' Hl'. subst b.
        exists (best :: x :: before), after.
        split; [simpl; do 2 f_equal; exact Hl'|].
        split; [|split; [exact Hafter|exact Hle]].
        inversion Hbefore as [|? ? Hgb Hbefore']; subst.
        constructor; [exact Hgb|]. constructor; [|exact Hbefore'].
        float_lia.
Qed.

Lemma max_by_map {A : Type} (key : A -> float) (l : list A) :
  forall best,
    max_by (fun x => x) (key best) (map key l) = key (max_by key best l).
Proof.
  induction l as [|x l IH]; intros best; [reflexivity|].
  cbn [map max_by]. destruct (gt (key x) (key best)); apply IH.
Qed.

(** X10.  When there is at least one period and no duration is NaN, the
    summary's peak spike is the first of the periods with the greatest
    duration, and the maximum time above melt is its duration: every
    earlier period is strictly shorter and no later period is longer. *)
Theorem peak_spike_is_first_longest :
  forall (times : list float) (periods : list period),
    periods <> [] ->
    forallb (fun p => negb (is_nan (duration p))) periods = true ->
    exists p before after,
      periods = before ++ p :: after
      /\ max_spike (summarize times periods) = Some p
      /\ max_time_above_melt (summarize times periods) = duration p
      /\ Forall (fun p' => gt (duration p) (duration p') = true) before
      /\ Forall (fun p' => le (duration p') (duration p) = true) after.
Proof.
  intros times periods Hne Hnan.
  destruct periods as [|p0 ps]; [contradiction Hne; reflexivity|].
  assert (Hfin : Forall (fun p => is_nan (duration p) = false) (p0 :: ps)).
  { apply Forall_forall. intros p Hp. rewrite forallb_forall in Hnan.
    apply negb_true_iff. apply Hnan. exact Hp. }
  destruct (max_by_spec duration ps p0 Hfin)
    as [before [after [Heq [Hb [Ha _]]]]].
  exists (max_by duration p0 ps), before, after.
  split; [exact Heq|]. split; [reflexivity|].
  split; [apply max_by_map|]. split; assumption.
Qed.

Lemma peak_spike_is_first_longest_witness :
  let periods := [mk_period 0.5 1.5 1 1; mk_period 2.5 4.5 2 2;
                  mk_period 6.5 8.5 2 3]%float in
  periods <> []
  /\ forallb (fun p => negb (is_nan (duration p))) periods = true
  /\ exists p before after,
       periods = before ++ p :: after
       /\ max_spike (summarize [] periods) = Some p
       /\ max_time_above_melt (summarize [] periods) = duration p
       /\ Forall (fun p' => gt (duration p) (duration p') = true) before
       /\ Forall (fun p' => le (duration p') (duration p) = true) after.
Proof.
  cbv zeta.
  assert (Hne : [mk_period 0.5 1.5 1 1; mk_period 2.5 4.5 2 2;
                 mk_period 6.5 8.5 2 3]%float <> []) by discriminate.
  assert (Hnan : forallb (fun p => negb (is_nan (duration p)))
                   [mk_period 0.5 1.5 1 1; mk_period 2.5 4.5 2 2;
                    mk_period 6.5 8.5 2 3]%float = true)
    by (vm_compute; reflexivity).
  split; [exact Hne|]. split; [exact Hnan|].
  exact (peak_spike_is_first_longest [] _ Hne Hnan).
Defined.

(** ** A melt temperature that is not a number *)

Lemma sub_is_nan_r (x y : float) :
  is_nan y = true -> is_nan (sub x y) = true.
Proof.
  rewrite !is_nan_Prim2SF. unfold sub. rewrite sub_spec.
  intros ->. destruct (Prim2SF x) as [?|?| |? ? ?]; reflexivity.
Qed.

(** X22.  With a melt temperature that is NaN every comparison of line 80
    fails: whatever the samples, a call that returns has found no
    crossing and no period. *)
Theorem nan_melt_temperature_finds_nothing :
  forall (fuel : nat) (idx : list nat) (s : series) (threshold : float)
         (r : analysis),
    is_nan threshold = true ->
    find_crossings fuel idx s threshold = Returns r ->
    r = ([], [], []).
Proof.
  intros fuel idx s threshold [[times types] periods] Hnan H.
  destruct (find_crossings_returns_pairs _ _ _ _ _ _ _ H)
    as [cs [-> [-> [-> Hcs]]]].
  assert (Hnil : cs = []).
  { destruct (le_lt_dec 2 (length s)) as [Hlen|Hshort].
    - rewrite (Hcs Hlen). unfold crossings_of.
      rewrite detect_crossings_scan, scan_filter.
      assert (Hf : forall l,
                 filter (fun i =>
                           sign_change
                             (sub (nth i (snd (resampled idx s)) nan) threshold)
                             (sub (nth (i + 1) (snd (resampled idx s)) nan)
                                  threshold)) l = []).
      { induction l as [|i l IH]; [reflexivity|]. cbn [filter].
        destruct (sign_change _ _) eqn:E; [|exact IH].
        apply sign_change_not_nan in E. destruct E as [E _].
        rewrite (sub_is_nan_r _ _ Hnan) in E. discriminate E. }
      rewrite Hf. reflexivity.
    - rewrite find_crossings_short in H by exact Hshort.
      injection H as H _ _. destruct cs; [reflexivity|discriminate H]. }
  rewrite Hnil. reflexivity.
Qed.

Lemma nan_melt_temperature_finds_nothing_witness :
  is_nan nan = true
  /\ find_crossings 0 [0; 1; 2]%nat spike nan = Returns ([], [], [])
  /\ (forall r, find_crossings 0 [0; 1; 2]%nat spike nan = Returns r ->
                r = ([], [], [])).
Proof.
  assert (Hnan : is_nan nan = true) by reflexivity.
  split; [exact Hnan|]. split; [vm_compute; reflexivity|].
  intros r Hr.
  exact (nan_melt_temperature_finds_nothing 0 [0; 1; 2]%nat spike nan r
           Hnan Hr).
Defined.

(** * Properties of [extract_timestep_from_filename] *)

Module TimestepFacts.

Import String Timestep.
#[local] Open Scope N_scope.

Section Interpreter.

Variable U : N -> option nat.
Variable L : nat.

Lemma search_unfold (prefix suffix s : list N) :
  search U prefix suffix s
  = match match_here U prefix suffix s with
    | Some ds => Some ds
    | None =>
        match s with
        | [] => None
        | _ :: s' => search U prefix suffix s'
        end
    end.
Proof. destruct s; reflexivity. Qed.

Lemma span_digits_no_digit (s : list N) :
  starts_without_digit U s -> span_digits U s = ([], s).
Proof.
  destruct s as [|c s]; intros H; [reflexivity|].
  simpl in *. rewrite H. reflexivity.
Qed.

(** A numeral is a run of digits. *)
Lemma span_numeral (d : Decimal.uint) (rest : list N) :
  starts_without_digit U rest ->
  span_digits U (numeral d ++ rest) = (numeral d, rest).
Proof.
  intros Hrest.
  induction d as [|d IH|d IH|d IH|d IH|d IH|d IH|d IH|d IH|d IH|d IH];
    cbn [numeral app];
    try (cbn [span_digits]; rewrite IH; reflexivity).
  apply span_digits_no_digit. exact Hrest.
Qed.

Lemma numeral_nonempty (d : Decimal.uint) :
  d <> Decimal.Nil -> exists c x, numeral d = c :: x.
Proof.
  destruct d; intros H; try (eexists; eexists; reflexivity).
  contradiction H. reflexivity.
Qed.

(** The digits of a numeral denote the number. *)
Lemma int_acc_numeral (d : Decimal.uint) :
  forall acc, int_acc U (numeral d) acc = Nat.of_uint_acc d acc.
Proof.
  induction d as [|d IH|d IH|d IH|d IH|d IH|d IH|d IH|d IH|d IH|d IH];
    intros acc; [reflexivity|..];
    cbn [numeral int_acc Nat.of_uint_acc];
    rewrite IH, Nat.tail_mul_spec; f_equal;
    match goal with
    | |- context [digit_value U ?c] =>
        let v := eval cbv in (digit_value U c) in
        change (digit_value U c) with v
    end; cbv iota; lia.
Qed.

Lemma int_numeral (d : Decimal.uint) :
  too_long L (numeral d) = false ->
  int U L (numeral d) = Returns (Nat.of_uint d).
Proof.
  intros H. unfold int. rewrite H. f_equal. apply int_acc_numeral.
Qed.

Lemma strip_prefix_app (p s : list N) : strip_prefix p (p ++ s) = Some s.
Proof.
  induction p as [|a p IH]; [reflexivity|].
  simpl. rewrite N.eqb_refl. exact IH.
Qed.

(** The pattern matches where its prefix, a numeral and its suffix follow
    one another. *)
Lemma match_here_numeral (prefix suffix rest : list N) (d : Decimal.uint) :
  d <> Decimal.Nil -> starts_without_digit U (suffix ++ rest) ->
  match_here U prefix suffix (prefix ++ numeral d ++ suffix ++ rest)
  = Some (numeral d).
Proof.
  intros Hd Hsuf. unfold match_here.
  rewrite strip_prefix_app, (span_numeral d _ Hsuf).
  destruct (numeral_nonempty d Hd) as [c [x ->]].
  rewrite strip_prefix_app. reflexivity.
Qed.

Lemma search_numeral (prefix suffix rest : list N) (d : Decimal.uint) :
  d <> Decimal.Nil -> starts_without_digit U (suffix ++ rest) ->
  search U prefix suffix (prefix ++ numeral d ++ suffix ++ rest)
  = Some (numeral d).
Proof.
  intros Hd Hsuf. rewrite search_unfold, match_here_numeral by assumption.
  reflexivity.
Qed.

(** No match of a pattern with the prefix "test_small_" starts inside a
    numeral. *)
Lemma search_test_small_skips_numeral (suffix rest : list N)
  (d : Decimal.uint) :
  search U (codes "test_small_") suffix (numeral d ++ rest)
  = search U (codes "test_small_") suffix rest.
Proof.
  induction d as [|d IH|d IH|d IH|d IH|d IH|d IH|d IH|d IH|d IH|d IH];
    [reflexivity|..];
    cbn [numeral app];
    rewrite search_unfold; exact IH.
Qed.

(** A pattern without prefix whose suffix does not follow the numeral has
    no match that starts inside the numeral. *)
Lemma search_bare_wrong_suffix (suffix rest : list N) (d : Decimal.uint) :
  starts_without_digit U rest -> strip_prefix suffix rest = None ->
  search U [] suffix (numeral d ++ rest) = search U [] suffix rest.
Proof.
  intros Hrest Hno.
  induction d as [|d IH|d IH|d IH|d IH|d IH|d IH|d IH|d IH|d IH|d IH];
    [reflexivity|..];
    rewrite search_unfold; unfold match_here; cbn [strip_prefix];
    rewrite (span_numeral _ rest Hrest);
    cbn [numeral app];
    rewrite Hno; exact IH.
Qed.

Lemma search_test_small_wrong_suffix (suffix rest : list N)
  (d : Decimal.uint) :
  starts_without_digit U rest -> strip_prefix suffix rest = None ->
  search U (codes "test_small_") suffix
    (codes "test_small_" ++ numeral d ++ rest)
  = search U (codes "test_small_") suffix rest.
Proof.
  intros Hrest Hno.
  rewrite search_unfold. unfold match_here at 1.
  rewrite strip_prefix_app, (span_numeral d rest Hrest), Hno.
  assert (Hnone : match numeral d with
                  | [] => @None (list N)
                  | _ :: _ => None
                  end = None) by (destruct (numeral d); reflexivity).
  rewrite Hnone.
  change (codes "test_small_" ++ numeral d ++ rest)
    with (116 :: 101 :: 115 :: 116 :: 95 :: 115 :: 109 :: 97 :: 108 :: 108
          :: 95 :: numeral d ++ rest).
  cbv iota.
  do 10 (rewrite search_unfold; unfold match_here at 1;
         change (strip_prefix (codes "test_small_") (?c :: ?x)) with (@None (list N));
         cbv iota).
  apply search_test_small_skips_numeral.
Qed.

(** Without a digit in the name no pattern matches. *)
Lemma strip_prefix_no_digit (p : list N) :
  forall s r, strip_prefix p s = Some r -> has_digit U s = false ->
              has_digit U r = false.
Proof.
  induction p as [|a p IH]; intros s r H Hs; simpl in H.
  - injection H as <-. exact Hs.
  - destruct s as [|b s]; [discriminate|].
    destruct (a =? b); [|discriminate].
    simpl in Hs. apply Bool.orb_false_iff in Hs. apply (IH s r H). tauto.
Qed.

Lemma match_here_no_digit (prefix suffix s : list N) :
  has_digit U s = false -> match_here U prefix suffix s = None.
Proof.
  intros Hs. unfold match_here.
  destruct (strip_prefix prefix s) as [r|] eqn:E; [|reflexivity].
  pose proof (strip_prefix_no_digit _ _ _ E Hs) as Hr.
  destruct r as [|b r]; [reflexivity|].
  simpl in Hr. apply Bool.orb_false_iff in Hr. destruct Hr as [Hb _].
  simpl. rewrite Hb. reflexivity.
Qed.

Lemma search_no_digit (prefix suffix : list N) (s : list N) :
  has_digit U s = false -> search U prefix suffix s = None.
Proof.
  induction s as [|c s IH]; intros Hs.
  - simpl. rewrite match_here_no_digit by exact Hs. reflexivity.
  - rewrite search_unfold, match_here_no_digit by exact Hs.
    apply IH. simpl in Hs. apply Bool.orb_false_iff in Hs. tauto.
Qed.

Lemma search_numeral_end (prefix suffix : list N) (d : Decimal.uint) :
  d <> Decimal.Nil -> starts_without_digit U suffix ->
  search U prefix suffix (prefix ++ numeral d ++ suffix) = Some (numeral d).
Proof.
  intros Hd Hsuf.
  pose proof (search_numeral prefix suffix [] d Hd) as H.
  rewrite app_nil_r in H. apply H. exact Hsuf.
Qed.

Lemma search_numeral_bare (suffix : list N) (d : Decimal.uint) :
  d <> Decimal.Nil -> starts_without_digit U suffix ->
  search U [] suffix (numeral d ++ suffix) = Some (numeral d).
Proof. exact (search_numeral_end [] suffix d). Qed.

Lemma to_uint_not_nil (n : nat) : Nat.to_uint n <> Decimal.Nil.
Proof.
  intros H. pose proof (DecimalNat.Unsigned.of_to n) as Hn.
  rewrite H in Hn. simpl in Hn. subst n. discriminate H.
Qed.

Lemma extract_of_first_match (filename ds : list N) :
  first_match U patterns filename = Some ds ->
  extract_timestep_from_filename U L filename = int U L ds.
Proof.
  intros H. unfold extract_timestep_from_filename. rewrite H. reflexivity.
Qed.

(** What the patterns capture in the six shapes of numbered names. *)
Lemma first_match_numbered (d : Decimal.uint) :
  d <> Decimal.Nil ->
  (forall rest,
      first_match U patterns
        (codes "test_small_" ++ numeral d ++ codes ".vtk" ++ rest)
      = Some (numeral d))
  /\ first_match U patterns (codes "test_small_" ++ numeral d ++ codes ".vtu")
     = Some (numeral d)
  /\ first_match U patterns (codes "test_small_" ++ numeral d ++ codes ".vti")
     = Some (numeral d)
  /\ first_match U patterns (numeral d ++ codes ".vtk") = Some (numeral d)
  /\ first_match U patterns (numeral d ++ codes ".vtu") = Some (numeral d)
  /\ first_match U patterns (numeral d ++ codes ".vti") = Some (numeral d).
Proof.
  intros Hd.
  assert (Hdot : forall x, starts_without_digit U (46 :: x))
    by (intros x; reflexivity).
  repeat split; try intros rest; unfold patterns; cbn [first_match].
  - rewrite (search_numeral (codes "test_small_") (codes ".vtk") rest d Hd
               (Hdot _)).
    reflexivity.
  - rewrite (search_test_small_wrong_suffix (codes ".vtk") (codes ".vtu") d
               (Hdot _) eq_refl).
    rewrite (search_numeral_end (codes "test_small_") (codes ".vtu") d Hd
               (Hdot _)).
    reflexivity.
  - rewrite (search_test_small_wrong_suffix (codes ".vtk") (codes ".vti") d
               (Hdot _) eq_refl).
    rewrite (search_test_small_wrong_suffix (codes ".vtu") (codes ".vti") d
               (Hdot _) eq_refl).
    rewrite (search_numeral_end (codes "test_small_") (codes ".vti") d Hd
               (Hdot _)).
    reflexivity.
  - rewrite !search_test_small_skips_numeral.
    rewrite (search_numeral_bare (codes ".vtk") d Hd (Hdot _)).
    reflexivity.
  - rewrite !search_test_small_skips_numeral.
    rewrite (search_bare_wrong_suffix (codes ".vtk") (codes ".vtu") d
               (Hdot _) eq_refl).
    rewrite (search_numeral_bare (codes ".vtu") d Hd (Hdot _)).
    reflexivity.
  - rewrite !search_test_small_skips_numeral.
    rewrite (search_bare_wrong_suffix (codes ".vtk") (codes ".vti") d
               (Hdot _) eq_refl).
    rewrite (search_bare_wrong_suffix (codes ".vtu") (codes ".vti") d
               (Hdot _) eq_refl).
    rewrite (search_numeral_bare (codes ".vti") d Hd (Hdot _)).
    reflexivity.
Qed.

(** X12.  A file name made of "test_small_", a decimal numeral of the
    digits 0-9 (leading zeros allowed) that [int] does not refuse for its
    length, and one of the extensions ".vtk", ".vtu", ".vti", or of the
    numeral and the extension alone, gives the number the numeral
    denotes; after "test_small_<numeral>.vtk" any further text is
    ignored. *)
Theorem timestep_of_numbered_name :
  forall d : Decimal.uint,
    d <> Decimal.Nil ->
    too_long L (numeral d) = false ->
    (forall rest,
        extract_timestep_from_filename U L
          (codes "test_small_" ++ numeral d ++ codes ".vtk" ++ rest)
        = Returns (Nat.of_uint d))
    /\ extract_timestep_from_filename U L
         (codes "test_small_" ++ numeral d ++ codes ".vtu")
       = Returns (Nat.of_uint d)
    /\ extract_timestep_from_filename U L
         (codes "test_small_" ++ numeral d ++ codes ".vti")
       = Returns (Nat.of_uint d)
    /\ extract_timestep_from_filename U L (numeral d ++ codes ".vtk")
       = Returns (Nat.of_uint d)
    /\ extract_timestep_from_filename U L (numeral d ++ codes ".vtu")
       = Returns (Nat.of_uint d)
    /\ extract_timestep_from_filename U L (numeral d ++ codes ".vti")
       = Returns (Nat.of_uint d).
Proof.
  intros d Hd Hlen.
  destruct (first_match_numbered d Hd) as [H1 [H2 [H3 [H4 [H5 H6]]]]].
  repeat split; try intros rest;
    rewrite <- (int_numeral d Hlen); apply extract_of_first_match;
    auto.
Qed.

(** X13.  The number written into a file name with [str] is read back:
    for every timestep [n] whose numeral [int] does not refuse for its
    length, the names "test_small_<n>.vtk", "test_small_<n>.vtu" and
    "test_small_<n>.vti" give [n]. *)
Theorem timestep_round_trip :
  forall n : nat,
    too_long L (numeral (Nat.to_uint n)) = false ->
    extract_timestep_from_filename U L
      (codes "test_small_" ++ numeral (Nat.to_uint n) ++ codes ".vtk")
    = Returns n
    /\ extract_timestep_from_filename U L
         (codes "test_small_" ++ numeral (Nat.to_uint n) ++ codes ".vtu")
       = Returns n
    /\ extract_timestep_from_filename U L
         (codes "test_small_" ++ numeral (Nat.to_uint n) ++ codes ".vti")
       = Returns n.
Proof.
  intros n Hlen.
  pose proof (to_uint_not_nil n) as Hd.
  destruct (first_match_numbered _ Hd) as [H1 [H2 [H3 _]]].
  specialize (H1 []). rewrite app_nil_r in H1.
  pose proof (int_numeral _ Hlen) as Hint.
  rewrite (DecimalNat.Unsigned.of_to n) in Hint.
  repeat split; rewrite <- Hint; apply extract_of_first_match; assumption.
Qed.

(** X14.  A file name without any decimal digit gives 0, the same number
    as the name "test_small_0.vtk". *)
Theorem timestep_of_name_without_digit :
  forall filename : list N,
    has_digit U filename = false ->
    extract_timestep_from_filename U L filename = Returns 0%nat
    /\ extract_timestep_from_filename U L (codes "test_small_0.vtk")
       = Returns 0%nat.
Proof.
  intros filename H. split; [|reflexivity].
  unfold extract_timestep_from_filename, patterns. cbn [first_match].
  rewrite !search_no_digit by exact H. reflexivity.
Qed.

(** X21.  A numbered name whose numeral is longer than [int] accepts makes
    the function raise ValueError: the conversion of the captured digits
    is not guarded. *)
Theorem timestep_of_long_numeral_raises :
  forall (d : Decimal.uint) (rest : list N),
    too_long L (numeral d) = true ->
    extract_timestep_from_filename U L
      (codes "test_small_" ++ numeral d ++ codes ".vtk" ++ rest)
    = Raises ValueError.
Proof.
  intros d rest Hlen.
  assert (Hd : d <> Decimal.Nil) by (intros ->; discriminate Hlen).
  destruct (first_match_numbered d Hd) as [H1 _].
  rewrite (extract_of_first_match _ _ (H1 rest)).
  unfold int. rewrite Hlen. reflexivity.
Qed.

End Interpreter.

Lemma timestep_of_numbered_name_witness :
  Decimal.D0 (Decimal.D0 (Decimal.D4 (Decimal.D2 Decimal.Nil))) <> Decimal.Nil
  /\ too_long 4300
       (numeral (Decimal.D0 (Decimal.D0 (Decimal.D4 (Decimal.D2 Decimal.Nil)))))
     = false
  /\ extract_timestep_from_filename arabic_indic 4300
       (codes "test_small_0042.vtk.bak") = Returns 42%nat
  /\ extract_timestep_from_filename arabic_indic 4300 (codes "0042.vti")
     = Returns 42%nat.
Proof.
  assert (Hd : Decimal.D0 (Decimal.D0 (Decimal.D4 (Decimal.D2 Decimal.Nil)))
               <> Decimal.Nil) by discriminate.
  assert (Hl : too_long 4300
                 (numeral (Decimal.D0 (Decimal.D0
                            (Decimal.D4 (Decimal.D2 Decimal.Nil)))))
               = false) by reflexivity.
  split; [exact Hd|]. split; [exact Hl|].
  destruct (timestep_of_numbered_name arabic_indic 4300 _ Hd Hl)
    as [H1 [_ [_ [_ [_ H6]]]]].
  split; [exact (H1 (codes ".bak"))|exact H6].
Defined.

Lemma timestep_round_trip_witness :
  too_long 4300 (numeral (Nat.to_uint 125)) = false
  /\ extract_timestep_from_filename arabic_indic 4300
       (codes "test_small_125.vtk") = Returns 125%nat.
Proof.
  assert (Hl : too_long 4300 (numeral (Nat.to_uint 125)) = false)
    by reflexivity.
  split; [exact Hl|].
  exact (proj1 (timestep_round_trip arabic_indic 4300 125 Hl)).
Defined.

Lemma timestep_of_name_without_digit_witness :
  has_digit arabic_indic (codes "latest.vtk") = false
  /\ extract_timestep_from_filename arabic_indic 4300 (codes "latest.vtk")
     = Returns 0%nat.
Proof.
  assert (H : has_digit arabic_indic (codes "latest.vtk") = false)
    by reflexivity.
  split; [exact H|].
  exact (proj1 (timestep_of_name_without_digit arabic_indic 4300 _ H)).
Defined.

Lemma timestep_of_long_numeral_raises_witness :
  let d := Nat.iter 4301 Decimal.D1 Decimal.Nil in
  too_long 4300 (numeral d) = true
  /\ extract_timestep_from_filename arabic_indic 4300
       (codes "test_small_" ++ numeral d ++ codes ".vtk" ++ [])
     = Raises ValueError.
Proof.
  cbv zeta.
  assert (Hl : too_long 4300 (numeral (Nat.iter 4301 Decimal.D1 Decimal.Nil))
               = true) by (vm_compute; reflexivity).
  split; [exact Hl|].
  exact (timestep_of_long_numeral_raises arabic_indic 4300 _ [] Hl).
Defined.

End TimestepFacts.

(** * Properties of the melt pool measurements *)

Module MeltPoolFacts.

Import MeltPool.
#[local] Open Scope Q_scope.

#[local] Arguments Qred : simpl never.
#[local] Arguments Qplus : simpl never.
#[local] Arguments Qminus : simpl never.
#[local] Arguments Qmult : simpl never.
#[local] Arguments Qdiv : simpl never.
#[local] Arguments Qopp : simpl never.
#[local] Arguments Qle_bool : simpl never.
#[local] Arguments Qeq_bool : simpl never.

Lemma Qle_bool_false (a b : Q) : Qle_bool a b = false -> b < a.
Proof.
  intros H. apply Qnot_le_lt. intros Hle.
  apply Qle_bool_iff in Hle. congruence.
Qed.

Lemma Qeq_bool_false (a b : Q) : Qeq_bool a b = false -> ~ a == b.
Proof.
  intros H Heq. apply Qeq_bool_iff in Heq. congruence.
Qed.

Lemma Qle_bool_true_intro (a b : Q) : a <= b -> Qle_bool a b = true.
Proof. apply Qle_bool_iff. Qed.

Lemma Qle_bool_false_intro (a b : Q) : b < a -> Qle_bool a b = false.
Proof.
  intros H. destruct (Qle_bool a b) eqn:E; [|reflexivity].
  apply Qle_bool_iff in E. lra.
Qed.

Lemma Qeq_bool_false_intro (a b : Q) : ~ a == b -> Qeq_bool a b = false.
Proof.
  intros H. destruct (Qeq_bool a b) eqn:E; [|reflexivity].
  apply Qeq_bool_iff in E. contradiction.
Qed.

(** Boolean tests in the context become propositions on rationals. *)
Ltac q_reflect :=
  repeat match goal with
    | H : andb _ _ = true |- _ => apply andb_prop in H; destruct H
    | H : orb _ _ = true |- _ => apply orb_prop in H; destruct H
    | H : negb _ = true |- _ => apply negb_true_iff in H
    | H : negb _ = false |- _ => apply negb_false_iff in H
    | H : Qle_bool _ _ = true |- _ => apply Qle_bool_iff in H
    | H : Qle_bool _ _ = false |- _ => apply Qle_bool_false in H
    | H : Qeq_bool _ _ = true |- _ => apply Qeq_bool_iff in H
    | H : Qeq_bool _ _ = false |- _ => apply Qeq_bool_false in H
    end;
  repeat rewrite Qred_correct in *.

Lemma nondecreasing_nth (l : list Q) :
  nondecreasing l = true ->
  forall i j, (i <= j < length l)%nat -> nth i l 0 <= nth j l 0.
Proof.
  induction l as [|a l IH]; intros Hs i j Hij; simpl in Hij; [lia|].
  assert (Htl : nondecreasing l = true).
  { destruct l; [reflexivity|]. simpl in Hs. apply andb_prop in Hs. tauto. }
  assert (Hhd : forall k, (k < length l)%nat -> a <= nth k l 0).
  { intros k Hk. destruct l as [|b l]; [simpl in Hk; lia|].
    simpl in Hs. apply andb_prop in Hs. destruct Hs as [Hab _].
    apply Qle_bool_iff in Hab.
    apply Qle_trans with b; [exact Hab|].
    apply (IH Htl 0%nat k). lia. }
  destruct i as [|i], j as [|j]; simpl.
  - apply Qle_refl.
  - apply Hhd. lia.
  - lia.
  - apply IH; [exact Htl|lia].
Qed.


Lemma fold_min_spec (l : list nat) :
  forall i,
    (fold_left Nat.min l i <= i)%nat
    /\ (forall j, In j l -> (fold_left Nat.min l i <= j)%nat)
    /\ (fold_left Nat.min l i = i \/ In (fold_left Nat.min l i) l).
Proof.
  induction l as [|k l IH]; intros i; simpl.
  - split; [lia|]. split; [intros j []|left; reflexivity].
  - destruct (IH (Nat.min i k)) as [H1 [H2 H3]].
    split; [lia|]. split.
    + intros j [<-|Hj]; [lia|apply H2; exact Hj].
    + destruct H3 as [H3|H3]; [|right; right; exact H3].
      destruct (Nat.min_spec i k) as [[_ E]|[_ E]].
      * left. rewrite H3. exact E.
      * right. left. rewrite H3. symmetry. exact E.
Qed.

Lemma fold_max_spec (l : list nat) :
  forall i,
    (i <= fold_left Nat.max l i)%nat
    /\ (forall j, In j l -> (j <= fold_left Nat.max l i)%nat)
    /\ (fold_left Nat.max l i = i \/ In (fold_left Nat.max l i) l).
Proof.
  induction l as [|k l IH]; intros i; simpl.
  - split; [lia|]. split; [intros j []|left; reflexivity].
  - destruct (IH (Nat.max i k)) as [H1 [H2 H3]].
    split; [lia|]. split.
    + intros j [<-|Hj]; [lia|apply H2; exact Hj].
    + destruct H3 as [H3|H3]; [|right; right; exact H3].
      destruct (Nat.max_spec i k) as [[_ E]|[_ E]].
      * right. left. rewrite H3. symmetry. exact E.
      * left. rewrite H3. exact E.
Qed.

Lemma min_index_spec (l : list nat) :
  l <> [] ->
  In (min_index l) l /\ forall j, In j l -> (min_index l <= j)%nat.
Proof.
  destruct l as [|i l]; intros H; [contradiction H; reflexivity|].
  simpl. destruct (fold_min_spec l i) as [H1 [H2 H3]].
  split.
  - destruct H3 as [->|H3]; [left; reflexivity|right; exact H3].
  - intros j [<-|Hj]; [exact H1|apply H2; exact Hj].
Qed.

Lemma max_index_spec (l : list nat) :
  l <> [] ->
  In (max_index l) l /\ forall j, In j l -> (j <= max_index l)%nat.
Proof.
  destruct l as [|i l]; intros H; [contradiction H; reflexivity|].
  simpl. destruct (fold_max_spec l i) as [H1 [H2 H3]].
  split.
  - destruct H3 as [->|H3]; [left; reflexivity|right; exact H3].
  - intros j [<-|Hj]; [exact H1|apply H2; exact Hj].
Qed.

Lemma where_above_In (threshold : Q) (row : list Q) (j : nat) :
  In j (where_above threshold row)
  <-> (j < length row)%nat /\ above threshold (nth j row 0) = true.
Proof.
  unfold where_above. rewrite filter_In, in_seq. split.
  - intros [Hj Ha]. split; [lia|exact Ha].
  - intros [Hj Ha]. split; [lia|exact Ha].
Qed.

Lemma any_above_where (threshold : Q) (row : list Q) :
  any_above threshold row = true -> where_above threshold row <> [].
Proof.
  unfold any_above. intros H. apply existsb_exists in H.
  destruct H as [v [Hv Ha]].
  destruct (In_nth _ _ 0 Hv) as [j [Hj Hnth]].
  intros Hnil.
  assert (Hin : In j (where_above threshold row)).
  { apply where_above_In. split; [exact Hj|]. rewrite Hnth. exact Ha. }
  rewrite Hnil in Hin. destruct Hin.
Qed.

Lemma none_above_where (threshold : Q) (row : list Q) :
  any_above threshold row = false -> where_above threshold row = [].
Proof.
  unfold any_above. intros H.
  destruct (where_above threshold row) as [|j l] eqn:E; [reflexivity|].
  assert (Hin : In j (where_above threshold row))
    by (rewrite E; left; reflexivity).
  apply where_above_In in Hin. destruct Hin as [Hj Ha].
  assert (Hex : existsb (above threshold) row = true).
  { apply existsb_exists. exists (nth j row 0).
    split; [apply nth_In; exact Hj|exact Ha]. }
  congruence.
Qed.

(** [argmin_from], continued on [l] after the items [pre] with running
    minimum [best] at [best_i], returns the index of the first smallest
    item of [pre ++ l]. *)
Lemma argmin_from_spec (l : list Q) :
  forall (pre : list Q) (best_i : nat) (best : Q),
    (best_i < length pre)%nat ->
    nth best_i pre 0 = best ->
    (forall j, (j < length pre)%nat -> best <= nth j pre 0) ->
    (forall j, (j < best_i)%nat -> best < nth j pre 0) ->
    let r := argmin_from best_i best (length pre) l in
    (r < length (pre ++ l))%nat
    /\ (forall j, (j < length (pre ++ l))%nat ->
                  nth r (pre ++ l) 0 <= nth j (pre ++ l) 0)
    /\ (forall j, (j < r)%nat -> nth r (pre ++ l) 0 < nth j (pre ++ l) 0).
Proof.
  induction l as [|v l IH]; intros pre best_i best Hi Hb Hmin Hfirst.
  - simpl. rewrite app_nil_r. rewrite Hb.
    split; [exact Hi|]. split; assumption.
  - cbn [argmin_from].
    replace (pre ++ v :: l) with ((pre ++ [v]) ++ l)
      by (rewrite <- app_assoc; reflexivity).
    replace (S (length pre)) with (length (pre ++ [v]))
      by (rewrite length_app; simpl; lia).
    destruct (Qle_bool best v) eqn:E; cbn [negb].
    + apply Qle_bool_iff in E. apply IH.
      * rewrite length_app. simpl. lia.
      * rewrite app_nth1 by exact Hi. exact Hb.
      * intros j Hj. rewrite length_app in Hj. simpl in Hj.
        destruct (Nat.eq_dec j (length pre)) as [->|Hne].
        -- rewrite app_nth2 by lia. rewrite Nat.sub_diag. exact E.
        -- rewrite app_nth1 by lia. apply Hmin. lia.
      * intros j Hj. rewrite app_nth1 by lia. apply Hfirst. exact Hj.
    + apply Qle_bool_false in E. apply IH.
      * rewrite length_app. simpl. lia.
      * rewrite app_nth2 by lia. rewrite Nat.sub_diag. reflexivity.
      * intros j Hj. rewrite length_app in Hj. simpl in Hj.
        destruct (Nat.eq_dec j (length pre)) as [->|Hne].
        -- rewrite app_nth2 by lia. rewrite Nat.sub_diag. apply Qle_refl.
        -- rewrite app_nth1 by lia.
           specialize (Hmin j ltac:(lia)). lra.
      * intros j Hj. rewrite app_nth1 by lia.
        specialize (Hmin j ltac:(lia)). lra.
Qed.

Lemma argmin_spec (l : list Q) :
  l <> [] ->
  (argmin l < length l)%nat
  /\ (forall j, (j < length l)%nat -> nth (argmin l) l 0 <= nth j l 0)
  /\ (forall j, (j < argmin l)%nat -> nth (argmin l) l 0 < nth j l 0).
Proof.
  destruct l as [|v l]; intros H; [contradiction H; reflexivity|].
  apply (argmin_from_spec l [v] 0%nat v).
  - simpl. lia.
  - reflexivity.
  - intros j Hj. simpl in Hj. replace j with 0%nat by lia. apply Qle_refl.
  - intros j Hj. lia.
Qed.

(** The first index of a range at which a test holds. *)
Lemma find_seq_first (f : nat -> bool) (n : nat) :
  forall a,
    match find f (seq a n) with
    | Some k => (a <= k < a + n)%nat /\ f k = true
                /\ forall i, (a <= i < k)%nat -> f i = false
    | None => forall i, (a <= i < a + n)%nat -> f i = false
    end.
Proof.
  induction n as [|n IH]; intros a; simpl.
  - intros i Hi. lia.
  - destruct (f a) eqn:E.
    + split; [lia|]. split; [exact E|]. intros i Hi. lia.
    + specialize (IH (S a)). destruct (find f (seq (S a) n)) as [k|].
      * destruct IH as [Hk [Hf Hfirst]].
        split; [lia|]. split; [exact Hf|].
        intros i Hi. destruct (Nat.eq_dec i a) as [->|Hne]; [exact E|].
        apply Hfirst. lia.
      * intros i Hi. destruct (Nat.eq_dec i a) as [->|Hne]; [exact E|].
        apply IH. lia.
Qed.

(** The last index, from [r] down to 0, at which a test holds. *)
Lemma find_down_first (f : nat -> bool) (r : nat) :
  match find f (rev (seq 0 (S r))) with
  | Some k => (k <= r)%nat /\ f k = true
              /\ forall i, (k < i <= r)%nat -> f i = false
  | None => forall i, (i <= r)%nat -> f i = false
  end.
Proof.
  induction r as [|r IH].
  - simpl. destruct (f 0%nat) eqn:E.
    + split; [lia|]. split; [exact E|]. intros i Hi. lia.
    + intros i Hi. replace i with 0%nat by lia. exact E.
  - rewrite seq_S, rev_app_distr.
    change (rev [(0 + S r)%nat] ++ rev (seq 0 (S r)))
      with (S r :: rev (seq 0 (S r))).
    cbn [find]. destruct (f (S r)) eqn:E.
    + split; [lia|]. split; [exact E|]. intros i Hi. lia.
    + destruct (find f (rev (seq 0 (S r)))) as [k|].
      * destruct IH as [Hk [Hf Hfirst]].
        split; [lia|]. split; [exact Hf|].
        intros i Hi. destruct (Nat.eq_dec i (S r)) as [->|Hne]; [exact E|].
        apply Hfirst. lia.
      * intros i Hi. destruct (Nat.eq_dec i (S r)) as [->|Hne]; [exact E|].
        apply IH. lia.
Qed.

Lemma closest_index_in_range (coords : list Q) (target : Q) :
  coords <> [] -> (closest_index coords target < length coords)%nat.
Proof.
  intros H. unfold closest_index.
  destruct (argmin_spec (map (fun c => Qabs (c - target)) coords)) as [Hr _].
  - destruct coords; [contradiction H; reflexivity|discriminate].
  - rewrite length_map in Hr. exact Hr.
Qed.

Lemma analyze_xy_reference (x y : list Q) (xy_slice : list (list Q))
  (y_reference threshold : Q) :
  let m := analyze_xy x y xy_slice y_reference threshold in
  let ref := closest_index y y_reference in
  actual_y_ref m = nth ref y 0
  /\ depth m = Qabs (y_reference - depth_end_y m)
  /\ height m = Qabs (y_reference - height_end_y m)
  /\ depth_end_y m
     = match find (row_is_clear threshold xy_slice)
                  (seq ref (length y - ref)) with
       | Some i => nth i y 0
       | None => last y 0
       end
  /\ height_end_y m
     = match find (row_is_clear threshold xy_slice) (rev (seq 0 (ref + 1))) with
       | Some i => nth i y 0
       | None => nth 0 y 0
       end.
Proof.
  unfold analyze_xy.
  destruct (any_above threshold
              (nth (closest_index y y_reference) xy_slice []));
    repeat split.
Qed.

Lemma analyze_xy_width (x y : list Q) (xy_slice : list (list Q))
  (y_reference threshold : Q) :
  let m := analyze_xy x y xy_slice y_reference threshold in
  let ref := closest_index y y_reference in
  let profile := nth ref xy_slice [] in
  (width m, width_start_x m, width_end_x m)
  = if any_above threshold profile
    then (nth (max_index (where_above threshold profile)) x 0
          - nth (min_index (where_above threshold profile)) x 0,
          nth (min_index (where_above threshold profile)) x 0,
          nth (max_index (where_above threshold profile)) x 0)
    else (0, nth ref y 0, nth ref y 0).
Proof.
  unfold analyze_xy.
  destruct (any_above threshold
              (nth (closest_index y y_reference) xy_slice []));
    reflexivity.
Qed.



(** X17.  When some value of the reference row is above the threshold,
    the width runs from the first to the last column above the threshold:
    both ends are such columns, every such column lies between them, and
    on non-decreasing x coordinates the width is their distance, which is
    not negative. *)
Theorem width_spans_melted_columns :
  forall (x y : list Q) (xy_slice : list (list Q)) (y_reference threshold : Q),
    let m := analyze_xy x y xy_slice y_reference threshold in
    let profile := nth (closest_index y y_reference) xy_slice [] in
    nondecreasing x = true ->
    length profile = length x ->
    any_above threshold profile = true ->
    exists js je,
      (js <= je < length x)%nat
      /\ above threshold (nth js profile 0) = true
      /\ above threshold (nth je profile 0) = true
      /\ width_start_x m = nth js x 0
      /\ width_end_x m = nth je x 0
      /\ width m = nth je x 0 - nth js x 0
      /\ 0 <= width m
      /\ forall j, (j < length x)%nat ->
                   above threshold (nth j profile 0) = true ->
                   (js <= j <= je)%nat
                   /\ width_start_x m <= nth j x 0
                   /\ nth j x 0 <= width_end_x m.
Proof.
  intros x y xy_slice y_reference threshold m profile Hx Hlen Hany.
  pose proof (analyze_xy_width x y xy_slice y_reference threshold) as Hw.
  cbv zeta in Hw. fold m profile in Hw. rewrite Hany in Hw.
  injection Hw as Hwidth Hstart Hend.
  pose proof (any_above_where _ _ Hany) as Hne.
  destruct (min_index_spec _ Hne) as [Hmin_in Hmin].
  destruct (max_index_spec _ Hne) as [Hmax_in Hmax].
  set (js := min_index (where_above threshold profile)) in *.
  set (je := max_index (where_above threshold profile)) in *.
  apply where_above_In in Hmin_in. apply where_above_In in Hmax_in.
  destruct Hmin_in as [Hjs Hajs]. destruct Hmax_in as [Hje Haje].
  assert (Hord : (js <= je)%nat).
  { apply Hmax. apply where_above_In. split; assumption. }
  exists js, je.
  split; [lia|]. split; [exact Hajs|]. split; [exact Haje|].
  split; [exact Hstart|]. split; [exact Hend|]. split; [exact Hwidth|].
  split.
  - rewrite Hwidth.
    pose proof (nondecreasing_nth x Hx js je ltac:(lia)). lra.
  - intros j Hj Ha.
    assert (Hin : In j (where_above threshold profile))
      by (apply where_above_In; split; [lia|exact Ha]).
    pose proof (Hmin j Hin). pose proof (Hmax j Hin).
    split; [lia|]. rewrite Hstart, Hend.
    split; apply (nondecreasing_nth x Hx); lia.
Qed.

Lemma width_spans_melted_columns_witness :
  let x := [0; 1; 2; 3] in
  let y := [0; 1] in
  let xy_slice := [[0; 2000; 2000; 0]; [0; 0; 0; 0]] in
  let m := analyze_xy x y xy_slice 0 1000 in
  let profile := nth (closest_index y 0) xy_slice [] in
  nondecreasing x = true
  /\ length profile = length x
  /\ any_above 1000 profile = true
  /\ exists js je,
       (js <= je < length x)%nat
       /\ above 1000 (nth js profile 0) = true
       /\ above 1000 (nth je profile 0) = true
       /\ width_start_x m = nth js x 0
       /\ width_end_x m = nth je x 0
       /\ width m = nth je x 0 - nth js x 0
       /\ 0 <= width m
       /\ forall j, (j < length x)%nat ->
                    above 1000 (nth j profile 0) = true ->
                    (js <= j <= je)%nat
                    /\ width_start_x m <= nth j x 0
                    /\ nth j x 0 <= width_end_x m.
Proof.
  cbv zeta.
  assert (H1 : nondecreasing [0; 1; 2; 3] = true) by reflexivity.
  assert (H2 : length (nth (closest_index [0; 1] 0)
                           [[0; 2000; 2000; 0]; [0; 0; 0; 0]] [])
               = length [0; 1; 2; 3]) by reflexivity.
  assert (H3 : any_above 1000 (nth (closest_index [0; 1] 0)
                                   [[0; 2000; 2000; 0]; [0; 0; 0; 0]] [])
               = true) by reflexivity.
  split; [exact H1|]. split; [exact H2|]. split; [exact H3|].
  exact (width_spans_melted_columns [0; 1; 2; 3] [0; 1]
           [[0; 2000; 2000; 0]; [0; 0; 0; 0]] 0 1000 H1 H2 H3).
Defined.

(** X18.  When no value of the reference row is above the threshold, the
    width is 0, the two width positions are the y coordinate of the
    reference row, both searches stop on the reference row at once, and
    the depth and the height are both the distance between the requested
    reference and the y coordinate of the reference row. *)
Theorem nothing_melted_on_reference_row :
  forall (x y : list Q) (xy_slice : list (list Q)) (y_reference threshold : Q),
    let m := analyze_xy x y xy_slice y_reference threshold in
    y <> [] ->
    any_above threshold (nth (closest_index y y_reference) xy_slice [])
    = false ->
    width m = 0
    /\ width_start_x m = actual_y_ref m
    /\ width_end_x m = actual_y_ref m
    /\ depth_end_y m = actual_y_ref m
    /\ height_end_y m = actual_y_ref m
    /\ depth m = Qabs (y_reference - actual_y_ref m)
    /\ height m = Qabs (y_reference - actual_y_ref m).
Proof.
  intros x y xy_slice y_reference threshold m Hy Hnone.
  pose proof (analyze_xy_width x y xy_slice y_reference threshold) as Hw.
  pose proof (analyze_xy_reference x y xy_slice y_reference threshold) as Hr.
  cbv zeta in Hw, Hr. fold m in Hw, Hr. rewrite Hnone in Hw.
  injection Hw as Hwidth Hstart Hend.
  destruct Hr as [Href [Hd [Hh [Hde Hhe]]]].
  pose proof (closest_index_in_range y y_reference Hy) as Hin.
  set (ref := closest_index y y_reference) in *.
  assert (Hclear : row_is_clear threshold xy_slice ref = true)
    by (unfold row_is_clear; rewrite Hnone; reflexivity).
  assert (Hde' : depth_end_y m = nth ref y 0).
  { rewrite Hde. replace (length y - ref)%nat with (S (length y - ref - 1))
      by lia.
    cbn [seq find]. rewrite Hclear. reflexivity. }
  assert (Hhe' : height_end_y m = nth ref y 0).
  { rewrite Hhe. replace (ref + 1)%nat with (S ref) by lia.
    rewrite seq_S, rev_app_distr.
    change (rev [(0 + ref)%nat] ++ rev (seq 0 ref))
      with (ref :: rev (seq 0 ref)).
    cbn [find]. rewrite Hclear. reflexivity. }
  rewrite Href. rewrite Hd, Hh, Hde', Hhe'.
  repeat split; assumption.
Qed.

Lemma nothing_melted_on_reference_row_witness :
  let x := [0; 1; 2; 3] in
  let y := [0; 1] in
  let xy_slice := [[0; 2000; 2000; 0]; [0; 0; 0; 0]] in
  y <> []
  /\ any_above 1000 (nth (closest_index y (3 # 4)) xy_slice []) = false
  /\ depth (analyze_xy x y xy_slice (3 # 4) 1000)
     = Qabs ((3 # 4) - actual_y_ref (analyze_xy x y xy_slice (3 # 4) 1000)).
Proof.
  cbv zeta.
  assert (H1 : [0; 1] <> []) by discriminate.
  assert (H2 : any_above 1000 (nth (closest_index [0; 1] (3 # 4))
                                   [[0; 2000; 2000; 0]; [0; 0; 0; 0]] [])
               = false) by reflexivity.
  split; [exact H1|]. split; [exact H2|].
  exact (proj1 (proj2 (proj2 (proj2 (proj2 (proj2
           (nothing_melted_on_reference_row [0; 1; 2; 3] [0; 1]
              [[0; 2000; 2000; 0]; [0; 0; 0; 0]] (3 # 4) 1000 H1 H2))))))).
Defined.

(** X19.  The depth search ends on the first row, from the reference row
    towards the end of the grid, that has no value above the threshold, or
    on the last row when every row from the reference row on has one; the
    height search ends on the first such row from the reference row
    towards the start of the grid, or on the first row of the grid. *)
Theorem depth_and_height_end_rows :
  forall (x y : list Q) (xy_slice : list (list Q)) (y_reference threshold : Q),
    let m := analyze_xy x y xy_slice y_reference threshold in
    let ref := closest_index y y_reference in
    let clear := row_is_clear threshold xy_slice in
    y <> [] ->
    ((exists k, (ref <= k < length y)%nat
                /\ depth_end_y m = nth k y 0
                /\ clear k = true
                /\ forall i, (ref <= i < k)%nat -> clear i = false)
     \/ (depth_end_y m = last y 0
         /\ forall i, (ref <= i < length y)%nat -> clear i = false))
    /\ ((exists k, (k <= ref)%nat
                   /\ height_end_y m = nth k y 0
                   /\ clear k = true
                   /\ forall i, (k < i <= ref)%nat -> clear i = false)
        \/ (height_end_y m = nth 0 y 0
            /\ forall i, (i <= ref)%nat -> clear i = false)).
Proof.
  intros x y xy_slice y_reference threshold m ref clear Hy.
  pose proof (analyze_xy_reference x y xy_slice y_reference threshold) as Hr.
  cbv zeta in Hr. fold m ref clear in Hr.
  destruct Hr as [_ [_ [_ [Hde Hhe]]]].
  pose proof (closest_index_in_range y y_reference Hy) as Hin. fold ref in Hin.
  split.
  - pose proof (find_seq_first clear (length y - ref) ref) as Hf.
    destruct (find clear (seq ref (length y - ref))) as [k|].
    + destruct Hf as [Hk [Hc Hfirst]]. left. exists k.
      split; [lia|]. split; [exact Hde|]. split; assumption.
    + right. split; [exact Hde|]. intros i Hi. apply Hf. lia.
  - replace (ref + 1)%nat with (S ref) in Hhe by lia.
    pose proof (find_down_first clear ref) as Hf.
    destruct (find clear (rev (seq 0 (S ref)))) as [k|].
    + destruct Hf as [Hk [Hc Hfirst]]. left. exists k.
      split; [exact Hk|]. split; [exact Hhe|]. split; assumption.
    + right. split; [exact Hhe|exact Hf].
Qed.

Lemma depth_and_height_end_rows_witness :
  let x := [0; 1; 2; 3] in
  let y := [0; 1; 2] in
  let xy_slice := [[0; 2000; 2000; 0]; [0; 2000; 0; 0]; [0; 0; 0; 0]] in
  let m := analyze_xy x y xy_slice 0 1000 in
  let ref := closest_index y 0 in
  let clear := row_is_clear 1000 xy_slice in
  y <> []
  /\ depth_end_y m = 2
  /\ ((exists k, (ref <= k < length y)%nat
                 /\ depth_end_y m = nth k y 0
                 /\ clear k = true
                 /\ forall i, (ref <= i < k)%nat -> clear i = false)
      \/ (depth_end_y m = last y 0
          /\ forall i, (ref <= i < length y)%nat -> clear i = false)).
Proof.
  cbv zeta.
  assert (H1 : [0; 1; 2] <> []) by discriminate.
  split; [exact H1|]. split; [reflexivity|].
  exact (proj1 (depth_and_height_end_rows [0; 1; 2; 3] [0; 1; 2]
                  [[0; 2000; 2000; 0]; [0; 2000; 0; 0]; [0; 0; 0; 0]]
                  0 1000 H1)).
Defined.
End MeltPoolFacts.
